(** * The TCP load balancer of [loadbalancer/loadbalancer.py]

    A shallow embedding of [UniversalLoadBalancer]: the registry of
    backends (the configured list and the healthy list, both Python list
    objects living in a store), the round-robin selector, the health
    checker, the byte relay and the dispatcher, followed by the properties
    the design document states about them.

    Conventions.
    - A Python [list] object is a cell of the store; attributes hold
      references, so aliasing ([self.all_backends = backends]) and copies
      ([list(backends)]) are what the source makes them.
    - Python's [int] is unbounded: the cursor is a [Z].
    - A block run under [self.lock] is one atomic step.
    - What the network does (a probe or a connect succeeds or not, what
      [recv] returns, whether [sendall] completes) is an input of the
      model; a call that never returns leaves the caller [Blocked]. *)

From Stdlib Require Import ZArith Lia.
From Stdlib.Strings Require Import Byte.
From stdpp Require Import base option list gmap strings.

(** ** Values *)

(** A backend endpoint: the pair [(host, port)]. *)
Definition Backend : Type := string * Z.

Abbreviation bytes := (list byte).
Abbreviation sock := nat.
Abbreviation ref := positive.

(** The exceptions the modelled operations raise; all three derive from
    [Exception]. *)
Inductive exn := OSError | IndexError | RuntimeError.

(** What a socket object is doing. [close()] is idempotent. *)
Inductive status := Unconnected | Connected | Closed.

(** The lines the program prints. *)
Inductive message :=
| ServerDown (backend_port : Z)
| NoHealthyBackends
| ConnectFailed (backend_port : Z) (e : exn).

(** Everything the process does that can be observed from outside, in the
    order it happens. *)
Inductive event :=
| EvPrint (m : message)
| EvProbe (server : Backend) (ok : bool)
| EvAccept (s : sock)
| EvSocket (s : sock)
| EvConnect (s : sock) (server : Backend) (ok : bool)
| EvStart (source destination : sock)
| EvStartError (source destination : sock)
| EvRecv (s : sock) (data : bytes)
| EvRecvError (s : sock)
| EvSendall (s : sock) (data : bytes)
| EvSendallError (s : sock) (data : bytes) (sent : nat)
| EvClose (s : sock).

#[global] Instance exn_eq_dec : EqDecision exn.
Proof. solve_decision. Defined.
#[global] Instance status_eq_dec : EqDecision status.
Proof. solve_decision. Defined.
#[global] Instance byte_eq_dec : EqDecision byte := Byte.byte_eq_dec.
#[global] Instance message_eq_dec : EqDecision message.
Proof. solve_decision. Defined.
#[global] Instance event_eq_dec : EqDecision event.
Proof. solve_decision. Defined.

(** ** The balancer object and the process state *)

(** The attributes [__init__] sets.  [lock] has no field of its own: the
    two blocks it guards are atomic steps below. *)
Record UniversalLoadBalancer := mkLB {
  address : string;
  port : Z;
  all_backends : ref;
  healthy_backends : ref;
  current : Z;
}.

Record world := mkWorld {
  heap : gmap positive (list Backend);   (* the list objects *)
  self : UniversalLoadBalancer;          (* the object [lb] *)
  fds : gmap nat status;                 (* the socket objects *)
  log : list event;
}.

Definition set_heap (f : gmap positive (list Backend) → gmap positive (list Backend))
    (w : world) : world :=
  mkWorld (f (heap w)) (self w) (fds w) (log w).
Definition set_self (f : UniversalLoadBalancer → UniversalLoadBalancer)
    (w : world) : world :=
  mkWorld (heap w) (f (self w)) (fds w) (log w).
Definition set_fds (f : gmap nat status → gmap nat status) (w : world) : world :=
  mkWorld (heap w) (self w) (f (fds w)) (log w).
Definition emit (e : event) (w : world) : world :=
  mkWorld (heap w) (self w) (fds w) (log w ++ [e]).

Definition set_healthy_backends (r : ref) (lb : UniversalLoadBalancer) :=
  mkLB (address lb) (port lb) (all_backends lb) r (current lb).
Definition set_current (c : Z) (lb : UniversalLoadBalancer) :=
  mkLB (address lb) (port lb) (all_backends lb) (healthy_backends lb) c.

(** The contents of the two lists of the registry. *)
Definition configured (w : world) : list Backend :=
  heap w !!! all_backends (self w).
Definition healthy (w : world) : list Backend :=
  heap w !!! healthy_backends (self w).

(** ** Computations: state, exceptions, and calls that never return *)

Inductive outcome (A : Type) :=
| Returned (a : A)
| Raised (e : exn)
| Blocked.
Arguments Returned {A} a.
Arguments Raised {A} e.
Arguments Blocked {A}.

Definition M (A : Type) : Type := world → outcome A * world.

#[global] Instance M_ret : MRet M := λ A a w, (Returned a, w).
#[global] Instance M_bind : MBind M := λ A B f m w,
  match m w with
  | (Returned a, w') => f a w'
  | (Raised e, w') => (Raised e, w')
  | (Blocked, w') => (Blocked, w')
  end.

Definition raise {A} (e : exn) : M A := λ w, (Raised e, w).
Definition blocked {A} : M A := λ w, (Blocked, w).
Definition gets {A} (f : world → A) : M A := λ w, (Returned (f w), w).
Definition modify (f : world → world) : M unit := λ w, (Returned tt, f w).

(** [try: body / except Exception as e: handler e]. *)
Definition try_except {A} (body : M A) (handler : exn → M A) : M A := λ w,
  match body w with
  | (Raised e, w') => handler e w'
  | r => r
  end.

(** [try: body / finally: cleanup]; a body that never returns never
    reaches the cleanup. *)
Definition try_finally {A} (body : M A) (cleanup : M unit) : M A := λ w,
  match body w with
  | (Returned a, w') => (cleanup;; mret a) w'
  | (Raised e, w') => (cleanup;; raise e) w'
  | (Blocked, w') => (Blocked, w')
  end.

(** ** Python primitives *)

Definition print (m : message) : M unit := modify (emit (EvPrint m)).

(** [l[i]]: a negative index counts from the end, an index out of range
    raises [IndexError]. *)
Definition py_index {A} (l : list A) (i : Z) : option A :=
  let n := Z.of_nat (length l) in
  if bool_decide (0 ≤ i)%Z then l !! Z.to_nat i
  else if bool_decide (- n ≤ i)%Z then l !! Z.to_nat (i + n)
  else None.

Definition getitem {A} (l : list A) (i : Z) : M A :=
  match py_index l i with
  | Some x => mret x
  | None => raise IndexError
  end.

(** A new list object: [[]] with [xs = []], [list(it)] with the items of
    [it]. *)
Definition new_list (xs : list Backend) : M ref := λ w,
  let r := fresh (dom (heap w)) in
  (Returned r, set_heap <[r := xs]> w).

(** [l.append(x)] on the list object [r]. *)
Definition append (r : ref) (x : Backend) : M unit :=
  modify (set_heap (λ h, <[r := (h !!! r) ++ [x]]> h)).

(** ** [get_next_server] (lines 40-50) *)

Definition get_next_server : M (option Backend) :=
  (* with self.lock: *)
  healthy_backends ← gets healthy;
  if bool_decide (healthy_backends = []) then
    print NoHealthyBackends;;
    mret None
  else
    cur ← gets (λ w, current (self w));
    server ← getitem healthy_backends
                (cur `mod` Z.of_nat (length healthy_backends))%Z;
    cur ← gets (λ w, current (self w));
    modify (set_self (set_current (cur + 1)%Z));;
    mret (Some server).

(** [n] calls one after the other, nothing else running in between. *)
Fixpoint successive (n : nat) (w : world)
    : list (outcome (option Backend)) * world :=
  match n with
  | O => ([], w)
  | S n' =>
      let (r, w') := get_next_server w in
      let (rs, w'') := successive n' w' in
      (r :: rs, w'')
  end.

(** The item of [hl] under the cursor [c]. *)
Definition at_cursor (hl : list Backend) (c : Z) : option Backend :=
  hl !! Z.to_nat (c `mod` Z.of_nat (length hl)).

(** ** [__init__] (lines 6-21) *)

(** [backends] is the list object the caller passes; [h] is the store at
    that moment.  The new object keeps the caller's list itself as
    [all_backends] and a new list with the same items as
    [healthy_backends]. *)
Definition __init__ (bind_address : string) (port : Z) (backends : ref)
    (h : gmap positive (list Backend)) : world :=
  let copy := fresh (dom h) in              (* list(backends) *)
  {| heap := <[copy := h !!! backends]> h;
     self := {| address := bind_address;
                port := port;
                all_backends := backends;
                healthy_backends := copy;
                current := 0 |};
     fds := ∅;
     log := [] |}.

(** ** [health_check] (lines 23-38) *)

(** Where the health-check thread stands.  [alive] and the position of
    the [for] loop's list iterator are its local variables. *)
Inductive health_pc :=
| AtLoopHead                          (* line 26, before [alive = []] *)
| InFor (alive : ref) (i : nat)       (* line 27, iterator at index [i] *)
| Sleeping.                           (* line 38 *)

(** Line 26. *)
Definition health_begin : M ref := new_list [].

(** Lines 28-33, one iteration of the [for] loop on [server]; [ok] tells
    whether [socket.create_connection(server, timeout=1)] succeeded.  The
    bare [except:] catches whatever the probe raises. *)
Definition health_probe (alive : ref) (server : Backend) (ok : bool) : M unit :=
  modify (emit (EvProbe server ok));;
  if ok then append alive server
  else print (ServerDown server.2).

(** Lines 35-36. *)
Definition health_publish (alive : ref) : M unit :=
  (* with self.lock: *)
  modify (set_self (set_healthy_backends alive)).

(** ** Sockets *)

(** [socket.socket(AF_INET, SOCK_STREAM)]; [ok = false] when the system
    refuses a new descriptor. *)
Definition socket_socket (ok : bool) : M sock := λ w,
  if ok then
    let s := fresh (dom (fds w)) in
    (Returned s, emit (EvSocket s) (set_fds <[s := Unconnected]> w))
  else (Raised OSError, w).

(** [client_conn, addr = s.accept()] on the listening socket (line 97). *)
Definition accept : M sock := λ w,
  let s := fresh (dom (fds w)) in
  (Returned s, emit (EvAccept s) (set_fds <[s := Connected]> w)).

Definition connect (s : sock) (server : Backend) (ok : bool) : M unit := λ w,
  if ok then
    (Returned tt, emit (EvConnect s server true) (set_fds <[s := Connected]> w))
  else (Raised OSError, emit (EvConnect s server false) w).

(** [s.close()]: idempotent, and taken never to raise. *)
Definition close (s : sock) : M unit :=
  modify (λ w, emit (EvClose s) (set_fds <[s := Closed]> w)).

(** What one [recv] call on the source does, and one [sendall] call on
    the destination: the bytes received (none at end of stream) or an
    error; the whole buffer sent, or an error after [sent] bytes. *)
Inductive recv_result := RecvBytes (data : bytes) | RecvError.
Inductive send_result := SendOk | SendError (sent : nat).

#[global] Instance RecvBytes_inj : Inj (=) (=) RecvBytes.
Proof. by intros ?? [=]. Qed.

(** [s.recv(bufsize)] answers with at most [bufsize] bytes: a longer
    answer of the network is cut to that size. *)
Definition recv (s : sock) (bufsize : nat) (r : recv_result) : M bytes :=
  match r with
  | RecvBytes data =>
      modify (emit (EvRecv s (take bufsize data)));; mret (take bufsize data)
  | RecvError => modify (emit (EvRecvError s));; raise OSError
  end.

Definition sendall (s : sock) (data : bytes) (r : send_result) : M unit :=
  match r with
  | SendOk => modify (emit (EvSendall s data))
  | SendError sent => modify (emit (EvSendallError s data sent));; raise OSError
  end.

(** [threading.Thread(target=self.proxy_data, args=(a, b)).start()];
    [ok = false] when no new thread can be started. *)
Definition start_proxy (source destination : sock) (ok : bool) : M unit :=
  if ok then modify (emit (EvStart source destination))
  else modify (emit (EvStartError source destination));; raise RuntimeError.

(** ** [proxy_data] (lines 52-64) *)

(** The [while True] loop.  [recvs] lists what the successive
    [source.recv(4096)] calls answer and [sends] what the successive
    [destination.sendall(data)] calls do; where a list ends, the call
    never returns. *)
Fixpoint proxy_loop (source destination : sock)
    (recvs : list recv_result) (sends : list send_result) : M unit :=
  match recvs with
  | [] => blocked
  | r :: recvs' =>
      data ← recv source 4096 r;
      if bool_decide (data = []) then mret tt          (* break *)
      else
        match sends with
        | [] => blocked
        | s :: sends' =>
            sendall destination data s;;
            proxy_loop source destination recvs' sends'
        end
  end.

Definition proxy_data (source destination : sock)
    (recvs : list recv_result) (sends : list send_result) : M unit :=
  try_finally
    (try_except
       (proxy_loop source destination recvs sends)
       (λ _, mret tt))                                 (* pass *)
    (close source;; close destination).

(** ** [handle_request] (lines 66-85) *)

(** What the system answers to the dispatcher of one session. *)
Record session_env := {
  socket_ok : bool;       (* line 74 *)
  connect_ok : bool;      (* line 76 *)
  start1_ok : bool;       (* line 81 *)
  start2_ok : bool;       (* line 82 *)
}.

Definition handle_request (env : session_env) (client_conn : sock) : M unit :=
  server_info ← get_next_server;
  match server_info with
  | None => close client_conn                          (* return *)
  | Some (backend_host, backend_port) =>
      backend_conn ← socket_socket (socket_ok env);
      try_except
        (connect backend_conn (backend_host, backend_port) (connect_ok env);;
         start_proxy client_conn backend_conn (start1_ok env);;
         start_proxy backend_conn client_conn (start2_ok env))
        (λ e,
           print (ConnectFailed backend_port e);;
           close client_conn)
  end.

(** ** The running process *)

(** The steps the threads of the process take.  The health-check thread
    takes the first four; its probe learns from the network whether the
    backend answered.  The listener accepts a client (line 97), a
    dispatcher thread runs [handle_request] and a relay thread runs
    [proxy_data]; each touches the registry only inside
    [get_next_server], under the lock, and otherwise only its own
    sockets, so it is run here in one piece. *)
Inductive action :=
| Begin                                       (* line 26 *)
| Probe (ok : bool)                           (* lines 27-33, one iteration *)
| Publish                                     (* loop exhausted; lines 35-36 *)
| Wake                                        (* line 38 returns *)
| Accept
| Dispatch (env : session_env) (client_conn : sock)
| Relay (source destination : sock)
        (recvs : list recv_result) (sends : list send_result).

Definition step (a : action) (σ : world * health_pc) : option (world * health_pc) :=
  let (w, pc) := σ in
  match a with
  | Begin =>
      match pc with
      | AtLoopHead =>
          match health_begin w with
          | (Returned alive, w') => Some (w', InFor alive 0)
          | _ => None
          end
      | _ => None
      end
  | Probe ok =>
      match pc with
      | InFor alive i =>
          match configured w !! i with
          | Some server =>
              Some ((health_probe alive server ok w).2, InFor alive (S i))
          | None => None
          end
      | _ => None
      end
  | Publish =>
      match pc with
      | InFor alive i =>
          match configured w !! i with
          | Some _ => None
          | None => Some ((health_publish alive w).2, Sleeping)
          end
      | _ => None
      end
  | Wake =>
      match pc with
      | Sleeping => Some (w, AtLoopHead)
      | _ => None
      end
  | Accept => Some ((accept w).2, pc)
  | Dispatch env client_conn => Some ((handle_request env client_conn w).2, pc)
  | Relay source destination recvs sends =>
      Some ((proxy_data source destination recvs sends w).2, pc)
  end.

(** A schedule: the steps taken, in order. *)
Fixpoint run (sched : list action) (σ : world * health_pc)
    : option (world * health_pc) :=
  match sched with
  | [] => Some σ
  | a :: sched' =>
      match step a σ with
      | Some σ' => run sched' σ'
      | None => None
      end
  end.

(** The states of a process built by [__init__] on an existing list
    object [backends].  The caller's list, which [all_backends] aliases,
    is written by no thread of the process: the module only runs
    [lb.run()] after building [lb]. *)
Inductive reachable : world * health_pc → Prop :=
| reachable_init bind_address port backends h :
    is_Some (h !! backends) →
    reachable (__init__ bind_address port backends h, AtLoopHead)
| reachable_step a σ σ' :
    reachable σ → step a σ = Some σ' → reachable σ'.

(** The probe answers of a schedule, and the items of a list at the
    positions whose answer is [true]. *)
Definition probes (sched : list action) : list bool :=
  omap (λ a, match a with Probe ok => Some ok | _ => None end) sched.

Fixpoint passed (oks : list bool) (l : list Backend) : list Backend :=
  match oks, l with
  | ok :: oks', x :: l' =>
      if ok then x :: passed oks' l' else passed oks' l'
  | _, _ => []
  end.

(** ** The program's own instance (lines 100-106) *)

Definition my_servers : list Backend :=
  [("127.0.0.1", 8001%Z); ("127.0.0.1", 8002%Z); ("127.0.0.1", 8003%Z)].

(** [lb = UniversalLoadBalancer('0.0.0.0', 80, my_servers)], with
    [my_servers] the only list object there is yet. *)
Definition lb : world :=
  __init__ "0.0.0.0" 80 1%positive {[1%positive := my_servers]}.

(** A session for which the system does all it is asked, and one whose
    backend refuses the connection. *)
Definition served : session_env :=
  {| socket_ok := true; connect_ok := true;
     start1_ok := true; start2_ok := true |}.
Definition refused : session_env :=
  {| socket_ok := true; connect_ok := false;
     start1_ok := true; start2_ok := true |}.

(** A cycle of the health checker up to its publication, during which
    the second server is down and a client is served; and one in which
    no server answers. *)
Definition second_down : list action :=
  [Accept; Begin; Probe true; Dispatch served 0; Probe false; Probe true].
Definition all_down : list action :=
  [Begin; Probe false; Accept; Probe false; Probe false].

(** A stream of five bytes, arriving as three bytes and then two. *)
Definition abc : bytes := [x61; x62; x63].
Definition de : bytes := [x64; x65].

(** A computation that only does input and output: it leaves the list
    objects and the balancer's attributes as they are. *)
Definition io_only {A} (m : M A) : Prop :=
  ∀ w, heap (m w).2 = heap w ∧ self (m w).2 = self w.

(** What holds of the registry throughout: both lists exist and are two
    different objects, the healthy list is drawn from the configured one
    in its order, and the list the health checker is filling is a third
    object holding answers for the first [i] configured backends only. *)
Definition registry_ok (σ : world * health_pc) : Prop :=
  let w := σ.1 in
  let lb := self w in
  is_Some (heap w !! all_backends lb) ∧
  is_Some (heap w !! healthy_backends lb) ∧
  all_backends lb ≠ healthy_backends lb ∧
  healthy w `sublist_of` configured w ∧
  match σ.2 with
  | InFor alive i =>
      is_Some (heap w !! alive) ∧
      alive ≠ all_backends lb ∧
      alive ≠ healthy_backends lb ∧
      i ≤ length (configured w) ∧
      (heap w !!! alive) `sublist_of` take i (configured w)
  | _ => True
  end.

(** The steps of the listener, of a dispatcher or of a relay thread. *)
Definition is_session (a : action) : Prop :=
  match a with
  | Accept | Dispatch _ _ | Relay _ _ _ _ => True
  | _ => False
  end.

#[global] Instance is_session_dec a : Decision (is_session a).
Proof. destruct a; simpl; apply _. Defined.

(** ** Reading the log of a relay *)

(** What the [recv] calls on [s] answered, and the bytes that went out
    through [sendall] on [s] (a failed call counts for what it sent). *)
Definition received (s : sock) (evs : list event) : list recv_result :=
  omap (λ ev,
          match ev with
          | EvRecv s' data => if decide (s' = s) then Some (RecvBytes data) else None
          | EvRecvError s' => if decide (s' = s) then Some RecvError else None
          | _ => None
          end) evs.

Definition written (s : sock) (evs : list event) : bytes :=
  evs ≫= (λ ev,
            match ev with
            | EvSendall s' data => if decide (s' = s) then data else []
            | EvSendallError s' data sent =>
                if decide (s' = s) then take sent data else []
            | _ => []
            end).

(** The events of whole iterations of the loop: each chunk read from
    the source, then sent to the destination. *)
Definition relayed (source destination : sock) (chunks : list bytes) : list event :=
  chunks ≫= (λ c, [EvRecv source c; EvSendall destination c]).

(** A chunk a [recv(4096)] delivers before the end of the stream. *)
Definition full_chunk (c : bytes) : Prop := c ≠ [] ∧ length c ≤ 4096.

(** The ways the loop stops, or hangs. *)
Inductive ending :=
| EndOfStream
| ReadError
| WriteError (data : bytes) (sent : nat)
| RecvBlocked
| SendBlocked (data : bytes).

Definition ending_events (source destination : sock) (e : ending) : list event :=
  match e with
  | EndOfStream => [EvRecv source []]
  | ReadError => [EvRecvError source]
  | WriteError data sent =>
      [EvRecv source data; EvSendallError destination data sent]
  | RecvBlocked => []
  | SendBlocked data => [EvRecv source data]
  end.

Definition ending_outcome (e : ending) : outcome unit :=
  match e with
  | EndOfStream => Returned tt
  | ReadError | WriteError _ _ => Raised OSError
  | RecvBlocked | SendBlocked _ => Blocked
  end.

Definition ending_data (e : ending) : Prop :=
  match e with
  | WriteError data _ | SendBlocked data => full_chunk data
  | _ => True
  end.

(** ** Reading the log of the process *)

(** The bytes the [recv] calls on [s] brought in. *)
Definition delivered (s : sock) (evs : list event) : bytes :=
  evs ≫= (λ ev,
            match ev with
            | EvRecv s' data => if decide (s' = s) then data else []
            | _ => []
            end).

(** The sockets closed, the connects attempted and the clients accepted,
    in order. *)
Definition closes (evs : list event) : list sock :=
  omap (λ ev, match ev with EvClose s => Some s | _ => None end) evs.

Definition connects (evs : list event) : list (sock * Backend) :=
  omap (λ ev, match ev with
              | EvConnect s server _ => Some (s, server)
              | _ => None
              end) evs.

Definition accepted (evs : list event) : list sock :=
  omap (λ ev, match ev with EvAccept s => Some s | _ => None end) evs.

(** What the health checker leaves in the log: its probes and its
    reports of servers that are down. *)
Definition is_health_event (ev : event) : bool :=
  match ev with
  | EvProbe _ _ | EvPrint (ServerDown _) => true
  | _ => false
  end.

Definition health_log (evs : list event) : list event :=
  filter (λ ev, is_health_event ev) evs.

(** What one probe leaves there (lines 28-33). *)
Definition probe_report (server : Backend) (ok : bool) : list event :=
  EvProbe server ok :: (if ok then [] else [EvPrint (ServerDown server.2)]).

(** The number of sessions dispatched in a schedule. *)
Definition is_dispatch (a : action) : bool :=
  match a with Dispatch _ _ => true | _ => false end.

Definition dispatches (sched : list action) : nat :=
  length (filter (λ a, is_dispatch a) sched).

(** A list object that is not the one the health checker is filling. *)
Definition settled (r : ref) (v : list Backend) (σ : world * health_pc) : Prop :=
  is_Some (heap σ.1 !! r) ∧ heap σ.1 !!! r = v ∧
  match σ.2 with
  | InFor alive _ => alive ≠ r
  | _ => True
  end.

(** ** The end of a [handle_request] call *)

(** The sockets created in [evs], and the sockets that the relay threads
    started in [evs] hold: a started thread keeps its two arguments, a
    thread that could not be started keeps nothing. *)
Definition created (evs : list event) : list sock :=
  omap (λ ev, match ev with EvSocket s => Some s | _ => None end) evs.

Definition held (evs : list event) : list sock :=
  evs ≫= (λ ev,
            match ev with
            | EvStart source destination => [source; destination]
            | _ => []
            end).

(** CPython finalises a socket object when its last reference goes: its
    descriptor is closed, through no call of [close()]. *)
Definition finalize (s : sock) (w : world) : world :=
  set_fds <[s := Closed]> w.

(** The call of lines 66-85 to its end.  When the body is over, by
    return or by exception, the frame goes and with it the locals
    [backend_conn], [t1] and [t2]: a socket the call created and gave to
    no started thread has no reference left and is finalised.
    [client_conn] is the caller's.  Nothing else changes: the registry,
    the cursor, the log and the result are those of the body. *)
Definition call_handle_request (env : session_env) (client_conn : sock)
    : M unit := λ w,
  let (r, w') := handle_request env client_conn w in
  let evs := drop (length (log w)) (log w') in
  (r, foldr finalize w' (filter (λ s, s ∉ held evs) (created evs))).

(** The sockets that are open: the descriptors the process holds. *)
Definition open_sockets (w : world) : gset nat :=
  dom (filter (λ kv, kv.2 ≠ Closed) (fds w)).

(** A session whose second relay thread cannot be started. *)
Definition second_thread_fails : session_env :=
  {| socket_ok := true; connect_ok := true;
     start1_ok := true; start2_ok := false |}.
Definition first_thread_fails : session_env :=
  {| socket_ok := true; connect_ok := true;
     start1_ok := false; start2_ok := true |}.

(** The answer of the probes when only the server on port 8002 is
    down. *)
Definition all_but_8002 (server : Backend) : bool :=
  negb (server.2 =? 8002)%Z.

(** ** [run] (lines 87-98) *)

Module Listener.

(** What the listening thread does to its socket and to the clients it
    accepts, in order; the sockets themselves are in the world. *)
Inductive item :=
| ReuseAddr (s : sock)                                     (* line 91 *)
| Bind (s : sock) (address : string) (port : Z) (ok : bool) (* line 92 *)
| Listen (s : sock) (backlog : nat)                        (* line 93 *)
| Active (address : string) (port : Z)                     (* line 94 *)
| AcceptError (s : sock)                                   (* line 97 *)
| Handler (client_conn : sock) (ok : bool).                (* line 98 *)

(** What the system answers to one [s.accept()]: a client, for whom the
    handler thread can be started or not, or an error. *)
Inductive arrival := Arrives (handler_ok : bool) | AcceptFails.

Record env := {
  socket_ok : bool;                (* line 89 *)
  bind_ok : bool;                  (* line 92 *)
  arrivals : list arrival;         (* line 97, call after call *)
}.

(** The [while True] loop of lines 96-98 on the listening socket [s];
    where the arrivals end, [s.accept()] waits. *)
Fixpoint accept_loop (s : sock) (arrivals : list arrival) (tr : list item)
    (w : world) : outcome Empty_set * list item * world :=
  match arrivals with
  | [] => (Blocked, tr, w)
  | AcceptFails :: _ => (Raised OSError, tr ++ [AcceptError s], w)
  | Arrives handler_ok :: arrivals' =>
      match accept w with
      | (Returned client_conn, w') =>
          if handler_ok then
            accept_loop s arrivals' (tr ++ [Handler client_conn true]) w'
          else (Raised RuntimeError, tr ++ [Handler client_conn false], w')
      | (Raised e, w') => (Raised e, tr, w')
      | (Blocked, w') => (Blocked, tr, w')
      end
  end.

(** [with socket.socket(...) as s:] closes [s] when the body raises;
    [setsockopt] and [listen] are taken not to fail. *)
Definition run (e : env) (w : world) : outcome Empty_set * list item * world :=
  match socket_socket (socket_ok e) w with
  | (Returned s, w1) =>
      let address := address (self w1) in
      let port := port (self w1) in
      let body :=
        if bind_ok e then
          accept_loop s (arrivals e)
            [ReuseAddr s; Bind s address port true; Listen s 100;
             Active address port] w1
        else (Raised OSError, [ReuseAddr s; Bind s address port false], w1) in
      match body with
      | (Raised ex, tr, w2) => (Raised ex, tr, (close s w2).2)
      | r => r
      end
  | (Raised ex, w1) => (Raised ex, [], w1)
  | (Blocked, w1) => (Blocked, [], w1)
  end.

(** Two clients arrive and are served, then [accept] fails. *)
Definition two_then_error : env :=
  {| socket_ok := true; bind_ok := true;
     arrivals := [Arrives true; Arrives true; AcceptFails] |}.

(** The clients whose handler thread was started. *)
Definition started (tr : list item) : list sock :=
  omap (λ it, match it with Handler c true => Some c | _ => None end) tr.

End Listener.

(** * Properties *)

(** ** The selector *)

Lemma py_index_in_range {A} (l : list A) (i : Z) :
  (0 ≤ i < Z.of_nat (length l))%Z → py_index l i = l !! Z.to_nat i.
Proof.
  intros [Hlo _]. unfold py_index. by rewrite bool_decide_eq_true_2.
Qed.

Lemma cursor_index_lt (l : list Backend) (c : Z) :
  l ≠ [] → Z.to_nat (c `mod` Z.of_nat (length l)) < length l.
Proof.
  intros Hl. destruct l as [|x l]; [done|].
  pose proof (Z.mod_pos_bound c (Z.of_nat (length (x :: l)))) as Hb.
  simpl length in *. lia.
Qed.

(** The two branches of [get_next_server], as equations. *)
Lemma get_next_server_empty w :
  healthy w = [] →
  get_next_server w = (Returned None, emit (EvPrint NoHealthyBackends) w).
Proof.
  intros He. unfold get_next_server, mbind, M_bind, gets. simpl.
  by rewrite He.
Qed.

Lemma get_next_server_select w :
  healthy w ≠ [] →
  ∃ server,
    healthy w !! Z.to_nat (current (self w) `mod` Z.of_nat (length (healthy w)))
      = Some server ∧
    get_next_server w =
      (Returned (Some server),
       set_self (set_current (current (self w) + 1)) w).
Proof.
  intros Hne.
  destruct (lookup_lt_is_Some_2 (healthy w)
              (Z.to_nat (current (self w) `mod` Z.of_nat (length (healthy w)))))
    as [server Hs]; [by apply cursor_index_lt|].
  exists server. split; [done|].
  unfold get_next_server, mbind, M_bind, gets. simpl.
  rewrite bool_decide_eq_false_2 by done.
  unfold getitem. rewrite py_index_in_range.
  - by rewrite Hs.
  - apply Z.mod_pos_bound. destruct (healthy w); [done | simpl; lia].
Qed.

Lemma at_cursor_period hl c :
  at_cursor hl (c + Z.of_nat (length hl)) = at_cursor hl c.
Proof.
  unfold at_cursor. destruct hl as [|x hl]; [done|].
  f_equal. f_equal.
  rewrite <- (Z.mul_1_l (Z.of_nat (length (x :: hl)))) at 1.
  apply Z_mod_plus_full.
Qed.

Lemma at_cursor_rotate hl c i :
  i < length hl →
  at_cursor hl (c + Z.of_nat i)
  = rotate (Z.to_nat (c `mod` Z.of_nat (length hl))) hl !! i.
Proof.
  intros Hi. rewrite lookup_rotate_r by done.
  unfold at_cursor, rotate_nat_add. f_equal. f_equal.
  assert (0 < Z.of_nat (length hl))%Z as Hpos by lia.
  pose proof (Z.mod_pos_bound c _ Hpos).
  rewrite Z2Nat.id by lia.
  by rewrite Zplus_mod_idemp_l.
Qed.

Lemma healthy_set_current c w :
  healthy (set_self (set_current c) w) = healthy w.
Proof. done. Qed.

(** Closed form of [n] successive calls on a non-empty healthy list: the
    results follow the cursor, and only the cursor changes. *)
Lemma successive_select n w :
  healthy w ≠ [] →
  successive n w =
    ((λ k, Returned (at_cursor (healthy w) (current (self w) + Z.of_nat k)))
       <$> seq 0 n,
     set_self (set_current (current (self w) + Z.of_nat n)) w).
Proof.
  revert w. induction n as [|n IH]; intros w Hne.
  - simpl. f_equal. destruct w as [h [a p ab hb c] f l].
    unfold set_self, set_current; simpl. by rewrite Z.add_0_r.
  - cbn [successive].
    destruct (get_next_server_select w Hne) as (server & Hs & ->).
    rewrite IH by done. rewrite healthy_set_current.
    f_equal.
    + cbn [seq fmap list_fmap]. f_equal.
      * unfold at_cursor. by rewrite Z.add_0_r, Hs.
      * rewrite <- fmap_S_seq, <- list_fmap_compose.
        apply list_fmap_ext. intros i k _. simpl.
        do 2 f_equal. lia.
    + destruct w as [h [a p ab hb c] f l].
      unfold set_self, set_current; simpl. do 2 f_equal. lia.
Qed.

(** ** Frame: what input and output leave alone *)

Lemma io_only_ret {A} (a : A) : io_only (mret a).
Proof. by intros w. Qed.

Lemma io_only_raise {A} e : io_only (@raise A e).
Proof. by intros w. Qed.

Lemma io_only_blocked {A} : io_only (@blocked A).
Proof. by intros w. Qed.

Lemma io_only_bind {A B} (m : M A) (f : A → M B) :
  io_only m → (∀ a, io_only (f a)) → io_only (m ≫= f).
Proof.
  intros Hm Hf w. specialize (Hm w). unfold mbind, M_bind.
  destruct (m w) as [[a|e|] w']; simpl in *; [|done..].
  destruct (Hf a w') as [-> ->]. done.
Qed.

Lemma io_only_try_except {A} (body : M A) handler :
  io_only body → (∀ e, io_only (handler e)) → io_only (try_except body handler).
Proof.
  intros Hm Hf w. specialize (Hm w). unfold try_except.
  destruct (body w) as [[a|e|] w']; simpl in *; [done| |done].
  destruct (Hf e w') as [-> ->]. done.
Qed.

Lemma io_only_try_finally {A} (body : M A) cleanup :
  io_only body → io_only cleanup → io_only (try_finally body cleanup).
Proof.
  intros Hm Hc w. specialize (Hm w). unfold try_finally.
  destruct (body w) as [[a|e|] w']; simpl in *; [| |done].
  - destruct (io_only_bind cleanup (λ _, mret a) Hc (λ _, io_only_ret a) w')
      as [-> ->]. done.
  - destruct (io_only_bind cleanup (λ _, @raise A e) Hc
                (λ _, io_only_raise e) w') as [-> ->]. done.
Qed.

Lemma io_only_emit e : io_only (modify (emit e)).
Proof. by intros w. Qed.

Lemma io_only_print m : io_only (print m).
Proof. by intros w. Qed.

Lemma io_only_close s : io_only (close s).
Proof. by intros w. Qed.

Lemma io_only_socket_socket ok : io_only (socket_socket ok).
Proof. intros w. unfold socket_socket. by destruct ok. Qed.

Lemma io_only_connect s server ok : io_only (connect s server ok).
Proof. intros w. unfold connect. by destruct ok. Qed.

Lemma io_only_recv s n r : io_only (recv s n r).
Proof. intros w. by destruct r. Qed.

Lemma io_only_sendall s data r : io_only (sendall s data r).
Proof. intros w. by destruct r. Qed.

Lemma io_only_start_proxy a b ok : io_only (start_proxy a b ok).
Proof. intros w. by destruct ok. Qed.

Create HintDb io_only discriminated.
#[local] Hint Resolve io_only_ret io_only_raise io_only_blocked io_only_bind
  io_only_try_except io_only_try_finally io_only_emit io_only_print
  io_only_close io_only_socket_socket io_only_connect io_only_recv
  io_only_sendall io_only_start_proxy : io_only.

Lemma io_only_proxy_loop source destination recvs sends :
  io_only (proxy_loop source destination recvs sends).
Proof.
  revert sends. induction recvs as [|r recvs IH]; intros sends; simpl.
  - auto with io_only.
  - apply io_only_bind; [auto with io_only|]. intros data.
    case_bool_decide; [auto with io_only|].
    destruct sends; auto with io_only.
Qed.

Lemma io_only_proxy_data source destination recvs sends :
  io_only (proxy_data source destination recvs sends).
Proof.
  unfold proxy_data. pose proof io_only_proxy_loop. auto 6 with io_only.
Qed.

(** [get_next_server] writes no list and no attribute but the cursor. *)
Lemma get_next_server_frame w :
  let w' := (get_next_server w).2 in
  heap w' = heap w ∧
  all_backends (self w') = all_backends (self w) ∧
  healthy_backends (self w') = healthy_backends (self w) ∧
  fds w' = fds w.
Proof.
  destruct (decide (healthy w = [])) as [He|Hne].
  - by rewrite get_next_server_empty.
  - destruct (get_next_server_select w Hne) as (server & _ & ->). done.
Qed.

Lemma bind_run {A B} (m : M A) (f : A → M B) w :
  (m ≫= f) w =
    match m w with
    | (Returned a, w') => f a w'
    | (Raised e, w') => (Raised e, w')
    | (Blocked, w') => (Blocked, w')
    end.
Proof. done. Qed.

(** After its call of [get_next_server], [handle_request] only does
    input and output. *)
Lemma handle_request_frame env client_conn w :
  heap (handle_request env client_conn w).2 = heap w ∧
  self (handle_request env client_conn w).2 = self (get_next_server w).2.
Proof.
  unfold handle_request. rewrite bind_run.
  pose proof (get_next_server_frame w) as (Hh & _).
  destruct (get_next_server w) as [[[[host prt]|]|e|] w1]; simpl in *;
    [| |done..].
  - rewrite <- Hh.
    apply (io_only_bind (socket_socket (socket_ok env))); auto 7 with io_only.
  - by rewrite <- Hh.
Qed.

(** ** The registry along the steps of the process *)

Lemma fresh_ref_new (h : gmap positive (list Backend)) (r : ref) :
  is_Some (h !! r) → fresh (dom h) ≠ r.
Proof. intros Hr Heq. apply (is_fresh (dom h)). rewrite Heq. by apply elem_of_dom. Qed.

Lemma registry_same w w' :
  heap w' = heap w →
  all_backends (self w') = all_backends (self w) →
  healthy_backends (self w') = healthy_backends (self w) →
  configured w' = configured w ∧ healthy w' = healthy w.
Proof. unfold configured, healthy. by intros -> -> ->. Qed.

(** The listener, a dispatcher or a relay leaves the registry and the
    health checker where they are. *)
Lemma step_session a w pc σ' :
  is_session a → step a (w, pc) = Some σ' →
  σ'.2 = pc ∧ heap σ'.1 = heap w ∧
  all_backends (self σ'.1) = all_backends (self w) ∧
  healthy_backends (self σ'.1) = healthy_backends (self w).
Proof.
  destruct a; try done; intros _; simpl; intros [= <-]; simpl.
  - done.
  - destruct (handle_request_frame env client_conn w) as [-> ->].
    by destruct (get_next_server_frame w) as (_ & -> & -> & _).
  - by destruct (io_only_proxy_data source destination recvs sends w)
      as [-> ->].
Qed.

Lemma step_registry_ok a σ σ' :
  registry_ok σ → step a σ = Some σ' → registry_ok σ'.
Proof.
  destruct σ as [w pc]. intros (Hall & Hhl & Hne & Hsub & Hpc) Hstep.
  simpl in Hall, Hhl, Hne, Hsub, Hpc.
  destruct (decide (is_session a)) as [Hs|Hs].
  { destruct (step_session _ _ _ _ Hs Hstep) as (Hpc' & Hh & Ha & Hb).
    destruct (registry_same _ _ Hh Ha Hb) as [Hc Hl].
    destruct σ' as [w' pc']. simpl in *. subst pc'.
    unfold registry_ok. simpl. rewrite Hh, Ha, Hb, Hc, Hl. done. }
  destruct a; simpl in Hs; try done; destruct pc as [|alive i|];
    simpl in Hstep; try done.
  - (* Begin *)
    injection Hstep as <-. unfold registry_ok, configured, healthy in *.
    simpl in *.
    pose proof (fresh_ref_new _ _ Hall) as N1.
    pose proof (fresh_ref_new _ _ Hhl) as N2.
    rewrite !lookup_insert_ne, !lookup_total_insert_ne by done.
    rewrite lookup_insert_eq. split_and!; try done; [lia|].
    by rewrite lookup_total_insert_eq, take_0.
  - (* Probe *)
    destruct Hpc as (Hal & N1 & N2 & Hi & Hsa).
    destruct (configured w !! i) as [server|] eqn:Hsrv; [|done].
    injection Hstep as <-.
    assert (configured (health_probe alive server ok w).2 = configured w
            ∧ healthy (health_probe alive server ok w).2 = healthy w
            ∧ self (health_probe alive server ok w).2 = self w) as (Hc & Hl & Hs').
    { unfold configured, healthy. destruct ok; simpl; [|done].
      by rewrite !lookup_total_insert_ne. }
    unfold registry_ok. simpl. rewrite Hc, Hl, Hs'. split_and!; try done.
    + destruct ok; simpl; [|done]. by rewrite lookup_insert_ne.
    + destruct ok; simpl; [|done]. by rewrite lookup_insert_ne.
    + destruct ok; simpl; [|done]. rewrite lookup_insert_eq. by eexists.
    + apply lookup_lt_Some in Hsrv. lia.
    + rewrite (take_S_r _ _ _ Hsrv). destruct ok; simpl.
      * rewrite lookup_total_insert_eq. by apply sublist_app.
      * by apply sublist_inserts_r.
  - (* Publish *)
    destruct Hpc as (Hal & N1 & N2 & Hi & Hsa).
    destruct (configured w !! i) as [server|] eqn:Hsrv; [done|].
    injection Hstep as <-. unfold registry_ok, configured, healthy in *.
    simpl in *. split_and!; try done.
    etrans; [done|]. apply sublist_take.
  - (* Wake *)
    injection Hstep as <-. done.
Qed.

Lemma init_view bind_address port backends h :
  is_Some (h !! backends) →
  let w := __init__ bind_address port backends h in
  configured w = h !!! backends ∧ healthy w = h !!! backends ∧
  all_backends (self w) = backends ∧
  healthy_backends (self w) = fresh (dom h) ∧
  healthy_backends (self w) ≠ all_backends (self w).
Proof.
  intros Hb. pose proof (fresh_ref_new _ _ Hb) as Hne.
  unfold configured, healthy. simpl.
  by rewrite lookup_total_insert_eq, lookup_total_insert_ne.
Qed.

Lemma init_registry_ok bind_address port backends h :
  is_Some (h !! backends) →
  registry_ok (__init__ bind_address port backends h, AtLoopHead).
Proof.
  intros Hb. destruct (init_view bind_address port _ _ Hb) as (Hc & Hl & _ & _ & Hne).
  pose proof (fresh_ref_new _ _ Hb) as Hf.
  unfold registry_ok. cbn [fst snd]. rewrite Hc, Hl. simpl.
  rewrite lookup_insert_ne, lookup_insert_eq by done.
  by split_and!.
Qed.

Lemma reachable_registry_ok σ : reachable σ → registry_ok σ.
Proof.
  induction 1 as [| a σ σ' _ IH Hstep].
  - by apply init_registry_ok.
  - by eapply step_registry_ok.
Qed.

Lemma run_app s1 s2 σ :
  run (s1 ++ s2) σ = run s1 σ ≫= run s2.
Proof.
  revert σ. induction s1 as [|a s1 IH]; intros σ; simpl; [done|].
  destruct (step a σ); simpl; [apply IH | done].
Qed.

Lemma reachable_run sched σ σ' :
  reachable σ → run sched σ = Some σ' → reachable σ'.
Proof.
  revert σ. induction sched as [|a sched IH]; intros σ Hr; simpl.
  - by intros [= <-].
  - destruct (step a σ) as [σ1|] eqn:Hs; [|done].
    apply IH. by eapply reachable_step.
Qed.

(** The one step that writes [self.healthy_backends]. *)
Lemma step_publish σ σ' :
  step Publish σ = Some σ' →
  ∃ alive i,
    σ.2 = InFor alive i ∧ configured σ.1 !! i = None ∧
    σ' = (set_self (set_healthy_backends alive) σ.1, Sleeping).
Proof.
  destruct σ as [w [|alive i|]]; simpl; try done.
  destruct (configured w !! i) eqn:Hi; [done|].
  intros [= <-]. by exists alive, i.
Qed.

(** Every other step leaves both lists of the registry as they are. *)
Lemma step_keeps_registry a σ σ' :
  registry_ok σ → a ≠ Publish → step a σ = Some σ' →
  healthy_backends (self σ'.1) = healthy_backends (self σ.1) ∧
  all_backends (self σ'.1) = all_backends (self σ.1) ∧
  healthy σ'.1 = healthy σ.1 ∧
  configured σ'.1 = configured σ.1 ∧
  dom (heap σ.1) ⊆ dom (heap σ'.1).
Proof.
  destruct σ as [w pc]. intros (Hall & Hhl & Hne & Hsub & Hpc) Hnp Hstep.
  simpl in Hall, Hhl, Hne, Hsub, Hpc.
  destruct (decide (is_session a)) as [Hs|Hs].
  { destruct (step_session _ _ _ _ Hs Hstep) as (Hpc' & Hh & Ha & Hb).
    destruct (registry_same _ _ Hh Ha Hb) as [Hc Hl].
    cbn [fst snd]. by rewrite Hh. }
  destruct a; simpl in Hs; try done; destruct pc as [|alive i|];
    simpl in Hstep; try done.
  - injection Hstep as <-. unfold configured, healthy. simpl.
    pose proof (fresh_ref_new _ _ Hall) as N1.
    pose proof (fresh_ref_new _ _ Hhl) as N2.
    rewrite !lookup_total_insert_ne by done. split_and!; try done.
    rewrite dom_insert_L. set_solver.
  - destruct Hpc as (Hal & N1 & N2 & Hi & Hsa).
    destruct (configured w !! i) as [server|] eqn:Hsrv; [|done].
    injection Hstep as <-. unfold configured, healthy.
    destruct ok; simpl; [|done].
    rewrite !lookup_total_insert_ne by done. split_and!; try done.
    rewrite dom_insert_L. set_solver.
  - by injection Hstep as <-.
Qed.

Lemma run_keeps_registry sched σ σ' :
  registry_ok σ → Publish ∉ sched → run sched σ = Some σ' →
  healthy_backends (self σ'.1) = healthy_backends (self σ.1) ∧
  all_backends (self σ'.1) = all_backends (self σ.1) ∧
  healthy σ'.1 = healthy σ.1 ∧
  configured σ'.1 = configured σ.1 ∧
  dom (heap σ.1) ⊆ dom (heap σ'.1).
Proof.
  revert σ. induction sched as [|a sched IH]; intros σ Hok Hnp; simpl.
  - by intros [= <-].
  - destruct (step a σ) as [σ1|] eqn:Hs; [|done]. intros Hrun.
    apply not_elem_of_cons in Hnp as [Ha Hnp].
    destruct (step_keeps_registry _ _ _ Hok (not_eq_sym Ha) Hs)
      as (E1 & E2 & E3 & E4 & E5).
    destruct (IH σ1 (step_registry_ok _ _ _ Hok Hs) Hnp Hrun)
      as (F1 & F2 & F3 & F4 & F5).
    rewrite F1, F2, F3, F4. split_and!; try done. by etrans.
Qed.

(** ** One health-check cycle *)

Lemma passed_filter (up : Backend → bool) l :
  passed (up <$> l) l = filter (λ x, up x = true) l.
Proof.
  induction l as [|x l IH]; csimpl; [done|].
  rewrite IH. destruct (up x) eqn:Hx.
  - by rewrite filter_cons_True.
  - rewrite filter_cons_False; [done|]. by rewrite Hx.
Qed.

Lemma passed_sublist oks l : passed oks l `sublist_of` l.
Proof.
  revert l. induction oks as [|ok oks IH]; intros [|x l]; simpl;
    try apply sublist_nil_l.
  destruct ok; [by apply sublist_skip | by apply sublist_cons].
Qed.

Lemma probes_session a sched :
  is_session a → probes (a :: sched) = probes sched.
Proof. by destruct a. Qed.

(** Inside the [for] loop: as long as nothing is published, the list
    being filled grows by the backends whose probe answered, and the
    iterator advances by one per probe. *)
Lemma run_in_for sched w alive i σ' :
  registry_ok (w, InFor alive i) → Publish ∉ sched →
  run sched (w, InFor alive i) = Some σ' →
  σ'.2 = InFor alive (i + length (probes sched)) ∧
  heap σ'.1 !!! alive
  = heap w !!! alive ++ passed (probes sched) (drop i (configured w)).
Proof.
  revert w i. induction sched as [|a sched IH]; intros w i Hok Hnp; cbn [run].
  - intros [= <-]. simpl. by rewrite Nat.add_0_r, app_nil_r.
  - destruct (step a (w, InFor alive i)) as [[w1 pc1]|] eqn:Hs; [|done].
    intros Hrun. apply not_elem_of_cons in Hnp as [Ha Hnp].
    pose proof (step_registry_ok _ _ _ Hok Hs) as Hok1.
    destruct (step_keeps_registry _ _ _ Hok (not_eq_sym Ha) Hs)
      as (_ & _ & _ & Hc & _). simpl in Hc.
    destruct (decide (is_session a)) as [Hses|Hses].
    { destruct (step_session _ _ _ _ Hses Hs) as (Hpc & Hh & _).
      simpl in Hpc, Hh. subst pc1.
      destruct (IH _ _ Hok1 Hnp Hrun) as [-> ->].
      by rewrite Hh, Hc, probes_session. }
    destruct a; simpl in Hses; try done; simpl in Hs.
    destruct (configured w !! i) as [server|] eqn:Hsrv; [|done].
    injection Hs as <- <-.
    destruct (IH _ _ Hok1 Hnp Hrun) as [-> ->].
    change (probes (Probe ok :: sched)) with (ok :: probes sched).
    split; [f_equal; simpl; lia|].
    rewrite Hc. rewrite (drop_S _ _ _ Hsrv).
    destruct ok; simpl; [|done].
    by rewrite lookup_total_insert_eq, <- app_assoc.
Qed.

(** A whole cycle up to its publication, from the head of the loop. *)
Lemma run_from_head sched w σ' :
  registry_ok (w, AtLoopHead) → Publish ∉ sched →
  run sched (w, AtLoopHead) = Some σ' →
  (σ'.2 = AtLoopHead ∧ probes sched = []) ∨
  (∃ alive,
     σ'.2 = InFor alive (length (probes sched)) ∧
     (alive ∉ dom (heap w)) ∧
     heap σ'.1 !!! alive = passed (probes sched) (configured w)).
Proof.
  revert w. induction sched as [|a sched IH]; intros w Hok Hnp; cbn [run].
  - intros [= <-]. by left.
  - destruct (step a (w, AtLoopHead)) as [[w1 pc1]|] eqn:Hs; [|done].
    intros Hrun. apply not_elem_of_cons in Hnp as [Ha Hnp].
    pose proof (step_registry_ok _ _ _ Hok Hs) as Hok1.
    destruct (step_keeps_registry _ _ _ Hok (not_eq_sym Ha) Hs)
      as (_ & _ & _ & Hc & _). simpl in Hc.
    destruct (decide (is_session a)) as [Hses|Hses].
    { destruct (step_session _ _ _ _ Hses Hs) as (Hpc & Hh & _).
      simpl in Hpc, Hh. subst pc1. rewrite probes_session by done.
      destruct (IH _ Hok1 Hnp Hrun) as [[Hpc Hp]|(alive & Hpc & Hd & Hal)].
      - by left.
      - right. exists alive. by rewrite <- Hh, <- Hc. }
    destruct a; simpl in Hses; try done; simpl in Hs.
    injection Hs as <- <-. right. exists (fresh (dom (heap w))).
    destruct (run_in_for _ _ _ _ _ Hok1 Hnp Hrun) as [-> ->].
    change (probes (Begin :: sched)) with (probes sched).
    simpl. rewrite lookup_total_insert_eq, drop_0.
    split_and!; [done|apply is_fresh|].
    simpl in Hc. by rewrite Hc.
Qed.

(** ** The relay *)

Lemma world_eta w : mkWorld (heap w) (self w) (fds w) (log w) = w.
Proof. by destruct w. Qed.

Lemma recv_bytes_run s n data w :
  recv s n (RecvBytes data) w
  = (Returned (take n data), emit (EvRecv s (take n data)) w).
Proof. done. Qed.

Lemma sendall_ok_run s data w :
  sendall s data SendOk w = (Returned tt, emit (EvSendall s data) w).
Proof. done. Qed.

Lemma sendall_error_run s data sent w :
  sendall s data (SendError sent) w
  = (Raised OSError, emit (EvSendallError s data sent) w).
Proof. done. Qed.

(** The loop, whatever the network does: some whole iterations, then one
    of the five endings; no socket is touched otherwise. *)
Lemma proxy_loop_spec source destination recvs sends w :
  ∃ chunks e,
    Forall full_chunk chunks ∧ ending_data e ∧
    proxy_loop source destination recvs sends w =
      (ending_outcome e,
       mkWorld (heap w) (self w) (fds w)
         (log w ++ relayed source destination chunks
                ++ ending_events source destination e)).
Proof.
  revert sends w. induction recvs as [|r recvs IH]; intros sends w.
  { exists [], RecvBlocked. split_and!; [done..|].
    simpl. unfold blocked. by rewrite app_nil_r, world_eta. }
  cbn [proxy_loop]. rewrite bind_run. destruct r as [data|].
  2:{ exists [], ReadError. by split_and!. }
  rewrite recv_bytes_run. cbn beta iota.
  case_bool_decide as Hd.
  { exists [], EndOfStream. split_and!; [done..|]. simpl. by rewrite Hd. }
  assert (full_chunk (take 4096 data)) as Hfull.
  { split; [done|]. rewrite length_take. lia. }
  destruct sends as [|[|sent] sends].
  - exists [], (SendBlocked (take 4096 data)). by split_and!.
  - rewrite bind_run, sendall_ok_run. cbn beta iota.
    destruct (IH sends (emit (EvSendall destination (take 4096 data))
                 (emit (EvRecv source (take 4096 data)) w)))
      as (chunks & e & Hc & He & ->).
    exists (take 4096 data :: chunks), e. split_and!; [by constructor|done|].
    simpl. by rewrite <- !app_assoc.
  - rewrite bind_run, sendall_error_run. cbn beta iota.
    exists [], (WriteError (take 4096 data) sent). split_and!; [done..|].
    unfold emit. simpl. by rewrite <- app_assoc.
Qed.

(** [proxy_data] as a whole: unless the loop hangs, the call returns and
    has closed the source, then the destination. *)
Lemma proxy_data_spec source destination recvs sends w :
  ∃ chunks e,
    Forall full_chunk chunks ∧ ending_data e ∧
    proxy_data source destination recvs sends w =
      match ending_outcome e with
      | Blocked =>
          (Blocked,
           mkWorld (heap w) (self w) (fds w)
             (log w ++ relayed source destination chunks
                    ++ ending_events source destination e))
      | _ =>
          (Returned tt,
           mkWorld (heap w) (self w)
             (<[destination := Closed]> (<[source := Closed]> (fds w)))
             (log w ++ (relayed source destination chunks
                        ++ ending_events source destination e)
                    ++ [EvClose source; EvClose destination]))
      end.
Proof.
  destruct (proxy_loop_spec source destination recvs sends w)
    as (chunks & e & Hc & He & Hloop).
  exists chunks, e. split_and!; [done..|].
  unfold proxy_data, try_finally, try_except. rewrite Hloop.
  destruct e; simpl; try done;
    unfold mbind, M_bind, close, modify, mret, M_ret, emit, set_fds; simpl;
    by rewrite <- ?app_assoc.
Qed.

Lemma received_app s evs1 evs2 :
  received s (evs1 ++ evs2) = received s evs1 ++ received s evs2.
Proof. apply omap_app. Qed.

Lemma written_app s evs1 evs2 :
  written s (evs1 ++ evs2) = written s evs1 ++ written s evs2.
Proof. apply bind_app. Qed.

Lemma received_relayed source destination chunks :
  received source (relayed source destination chunks) = RecvBytes <$> chunks.
Proof.
  induction chunks as [|c chunks IH]; [done|].
  unfold relayed in *. rewrite bind_cons, received_app, IH. csimpl.
  by rewrite decide_True.
Qed.

Lemma written_relayed source destination chunks :
  written destination (relayed source destination chunks) = mjoin chunks.
Proof.
  induction chunks as [|c chunks IH]; [done|].
  unfold relayed in *. rewrite bind_cons, written_app, IH. csimpl.
  by rewrite decide_True, app_nil_r.
Qed.

(** A log whose reads are some chunks and then the end of the stream
    comes from whole iterations on these chunks, ended by the empty
    read. *)
Lemma received_end_of_stream source destination chunks' e chunks :
  Forall full_chunk chunks' → ending_data e →
  received source (relayed source destination chunks'
                   ++ ending_events source destination e)
  = (RecvBytes <$> chunks) ++ [RecvBytes []] →
  chunks' = chunks ∧ e = EndOfStream.
Proof.
  intros Hc He. rewrite received_app, received_relayed.
  destruct e as [| |data sent| |data]; simpl in *;
    rewrite ?decide_True by done; simpl; intros Heq.
  - apply app_inj_tail in Heq as [Heq _].
    split; [|done]. by apply (list_fmap_eq_inj RecvBytes _) in Heq.
  - by apply app_inj_tail in Heq as [_ ?].
  - apply app_inj_tail in Heq as [_ [= ->]]. by destruct He.
  - rewrite app_nil_r in Heq.
    assert (RecvBytes [] ∈ RecvBytes <$> chunks') as Hin.
    { rewrite Heq. set_solver. }
    apply list_elem_of_fmap in Hin as (c & [= <-] & Hin).
    rewrite Forall_forall in Hc. by destruct (Hc _ Hin).
  - apply app_inj_tail in Heq as [_ [= ->]]. by destruct He.
Qed.

(** The [N] calls made from a cursor [c] return the healthy list turned
    to start at position [c mod N]. *)
Lemma successive_window w :
  healthy w ≠ [] →
  (successive (length (healthy w)) w).1
  = Returned ∘ Some
      <$> rotate (Z.to_nat (current (self w)
                            `mod` Z.of_nat (length (healthy w)))) (healthy w).
Proof.
  intros Hne. rewrite successive_select by done.
  cbn [fst]. apply list_eq. intros i.
  rewrite !list_lookup_fmap.
  destruct (decide (i < length (healthy w))) as [Hi|Hi].
  - rewrite lookup_seq_lt by done. simpl.
    rewrite at_cursor_rotate by done.
    destruct (lookup_lt_is_Some_2
                (rotate (Z.to_nat (current (self w)
                                   `mod` Z.of_nat (length (healthy w))))
                   (healthy w)) i)
      as [x ->]; [by rewrite length_rotate|]. done.
  - rewrite lookup_seq_ge by lia. rewrite lookup_ge_None_2; [done|].
    rewrite length_rotate. lia.
Qed.

Lemma successive_first_round w :
  current (self w) = 0%Z →
  (successive (length (healthy w)) w).1 = Returned ∘ Some <$> healthy w.
Proof.
  intros Hc. destruct (decide (healthy w = [])) as [He|Hne].
  - by rewrite He.
  - rewrite successive_window by done. rewrite Hc, Zmod_0_l.
    unfold rotate. simpl.
    by rewrite Nat.Div0.mod_0_l, drop_0, take_0, app_nil_r.
Qed.

(** * The properties of the design *)

(** C3.  On a non-empty healthy list, one call of [get_next_server]
    returns the item at index [current mod len(healthy_backends)] and
    leaves the world as it was but for the cursor, which is one more. *)
Theorem get_next_server_returns_indexed (w : world) :
  healthy w ≠ [] →
  ∃ server,
    py_index (healthy w)
      (current (self w) `mod` Z.of_nat (length (healthy w)))%Z = Some server ∧
    healthy w !! Z.to_nat (current (self w) `mod` Z.of_nat (length (healthy w)))
      = Some server ∧
    (get_next_server w).1 = Returned (Some server) ∧
    current (self (get_next_server w).2) = (current (self w) + 1)%Z ∧
    (get_next_server w).2 = set_self (set_current (current (self w) + 1)) w.
Proof.
  intros Hne. destruct (get_next_server_select w Hne) as (server & Hs & ->).
  exists server. split_and!; try done.
  rewrite py_index_in_range; [done|].
  apply Z.mod_pos_bound. destruct (healthy w); [done | simpl; lia].
Qed.

Lemma get_next_server_returns_indexed_example :
  ∃ server,
    py_index (healthy lb)
      (current (self lb) `mod` Z.of_nat (length (healthy lb)))%Z = Some server ∧
    healthy lb !! Z.to_nat (current (self lb) `mod` Z.of_nat (length (healthy lb)))
      = Some server ∧
    (get_next_server lb).1 = Returned (Some server) ∧
    current (self (get_next_server lb).2) = (current (self lb) + 1)%Z ∧
    (get_next_server lb).2 = set_self (set_current (current (self lb) + 1)) lb.
Proof.
  apply (get_next_server_returns_indexed lb). vm_compute. discriminate.
Defined.

(** C2.  Round robin on a healthy list [hl] of [N > 0] items that no
    publication replaces.  The calls leave the list alone.  The results
    repeat with period [N].  The [N] calls that follow any [k] calls
    return the items of [hl], each position once, in the order of the
    list taken cyclically from the position [r] under the cursor: first
    the items from [r] on, then those before [r].  From a cursor of 0 the
    first [N] calls return [hl] itself, as the three calls on
    [my_servers] do. *)
Theorem round_robin_periodic (w : world) (k : nat) :
  healthy w ≠ [] →
  let hl := healthy w in
  let N := length hl in
  let c := current (self w) in
  let r := Z.to_nat ((c + Z.of_nat k) `mod` Z.of_nat N) in
  healthy (successive k w).2 = hl ∧
  (∀ n i, i + N < n →
     (successive n w).1 !! (i + N) = (successive n w).1 !! i) ∧
  (successive N (successive k w).2).1
    = Returned ∘ Some <$> drop r hl ++ take r hl ∧
  (c = 0%Z → (successive N w).1 = Returned ∘ Some <$> hl).
Proof.
  intros Hne hl N c r. split_and!.
  - by rewrite successive_select.
  - intros n i Hi. rewrite successive_select by done. cbn [fst].
    rewrite !list_lookup_fmap, !lookup_seq_lt by lia. simpl.
    do 2 f_equal. rewrite Nat2Z.inj_add, Z.add_assoc.
    apply at_cursor_period.
  - assert (healthy (successive k w).2 = hl) as Hk
      by (by rewrite successive_select).
    subst N. rewrite <- Hk at 1. rewrite successive_window by (by rewrite Hk).
    rewrite Hk. rewrite successive_select by done. cbn [snd self current].
    unfold rotate. fold hl c r.
    by rewrite Nat.mod_small by (by apply cursor_index_lt).
  - intros Hc. by apply successive_first_round.
Qed.

Lemma round_robin_periodic_example :
  (successive 3 lb).1
  = [Returned (Some ("127.0.0.1", 8001%Z));
     Returned (Some ("127.0.0.1", 8002%Z));
     Returned (Some ("127.0.0.1", 8003%Z))] ∧
  (successive 3 (successive 4 lb).2).1
  = [Returned (Some ("127.0.0.1", 8002%Z));
     Returned (Some ("127.0.0.1", 8003%Z));
     Returned (Some ("127.0.0.1", 8001%Z))].
Proof.
  assert (healthy lb ≠ []) as Hne by (vm_compute; discriminate).
  destruct (round_robin_periodic lb 4 Hne) as (_ & _ & Hwindow & Hfirst).
  split; [exact (Hfirst eq_refl) | exact Hwindow].
Defined.

(** ** The dispatcher *)

Lemma handle_request_empty env client_conn w :
  healthy w = [] →
  handle_request env client_conn w =
    (Returned tt,
     emit (EvClose client_conn)
       (set_fds <[client_conn := Closed]>
          (emit (EvPrint NoHealthyBackends) w))).
Proof.
  intros He. unfold handle_request.
  by rewrite bind_run, get_next_server_empty.
Qed.

(** The body on a session whose connect fails: it closes the client
    socket and calls [close()] on nothing else; when it ends, the socket
    it created for the backend is still as [socket.socket] made it. *)
Lemma handle_request_connect_fails env client_conn w :
  healthy w ≠ [] → socket_ok env = true → connect_ok env = false →
  ∃ server,
    at_cursor (healthy w) (current (self w)) = Some server ∧
    let backend_conn := fresh (dom (fds w)) in
    (handle_request env client_conn w).1 = Returned tt ∧
    fds (handle_request env client_conn w).2
    = <[client_conn := Closed]> (<[backend_conn := Unconnected]> (fds w)) ∧
    log (handle_request env client_conn w).2
    = log w ++ [EvSocket backend_conn;
                EvConnect backend_conn server false;
                EvPrint (ConnectFailed server.2 OSError);
                EvClose client_conn].
Proof.
  intros Hne Hsock Hconn.
  destruct (get_next_server_select w Hne) as (server & Hs & Hsel).
  exists server. split; [done|].
  unfold handle_request. rewrite bind_run, Hsel.
  destruct server as [host prt]. cbn beta iota.
  rewrite bind_run. unfold socket_socket. rewrite Hsock. cbn beta iota zeta.
  unfold try_except. rewrite bind_run. unfold connect. rewrite Hconn.
  cbn beta iota. rewrite bind_run. simpl.
  split_and!; [done..|]. by rewrite <- !app_assoc.
Qed.

(** C4.  With an empty healthy list [get_next_server] returns [None]: it
    neither raises nor hangs; [handle_request] then returns having closed
    the client socket and nothing more: no socket is created and no
    connect is attempted. *)
Theorem no_healthy_backend_rejects (w : world) (env : session_env)
    (client_conn : sock) :
  healthy w = [] →
  (get_next_server w).1 = Returned None ∧
  (handle_request env client_conn w).1 = Returned tt ∧
  fds (handle_request env client_conn w).2
  = <[client_conn := Closed]> (fds w) ∧
  log (handle_request env client_conn w).2
  = log w ++ [EvPrint NoHealthyBackends; EvClose client_conn] ∧
  heap (handle_request env client_conn w).2 = heap w ∧
  self (handle_request env client_conn w).2 = self w.
Proof.
  intros He. rewrite handle_request_empty, get_next_server_empty by done.
  simpl. split_and!; try done. by rewrite <- app_assoc.
Qed.

(** After a cycle in which every probe of [my_servers] fails, the
    client accepted on socket 0 is turned away. *)
Lemma no_healthy_backend_rejects_example :
  ∃ w,
    run (all_down ++ [Publish]) (lb, AtLoopHead) = Some (w, Sleeping) ∧
    (get_next_server w).1 = Returned None ∧
    (handle_request served 0 w).1 = Returned tt ∧
    fds (handle_request served 0 w).2 = <[0 := Closed]> (fds w) ∧
    log (handle_request served 0 w).2
    = log w ++ [EvPrint NoHealthyBackends; EvClose 0] ∧
    heap (handle_request served 0 w).2 = heap w ∧
    self (handle_request served 0 w).2 = self w.
Proof.
  eexists. split; [vm_compute; reflexivity|].
  apply no_healthy_backend_rejects. vm_compute. reflexivity.
Defined.

Lemma call_handle_request_frame env client_conn w :
  (call_handle_request env client_conn w).1
  = (handle_request env client_conn w).1 ∧
  heap (call_handle_request env client_conn w).2
  = heap (handle_request env client_conn w).2 ∧
  self (call_handle_request env client_conn w).2
  = self (handle_request env client_conn w).2 ∧
  log (call_handle_request env client_conn w).2
  = log (handle_request env client_conn w).2.
Proof.
  unfold call_handle_request.
  destruct (handle_request env client_conn w) as [r w']. cbn [fst snd].
  split; [done|].
  induction (filter (λ s, s ∉ held (drop (length (log w)) (log w')))
               (created (drop (length (log w)) (log w')))) as [|s l IH];
    [done|]. simpl. by destruct IH as (-> & -> & ->).
Qed.

Lemma elem_of_open_sockets s w :
  s ∈ open_sockets w ↔ ∃ st, fds w !! s = Some st ∧ st ≠ Closed.
Proof.
  unfold open_sockets. rewrite elem_of_dom. split.
  - intros [st Hst]. apply map_lookup_filter_Some in Hst as [? ?].
    by exists st.
  - intros (st & Hst & Hne). exists st. by apply map_lookup_filter_Some.
Qed.

(** A session that ends with its two sockets closed, the backend's
    having been created for it: what is open is what was, less the
    client's. *)
Lemma open_sockets_session_closed w w' client_conn backend_conn st :
  fds w !! backend_conn = None →
  fds w' = <[backend_conn := Closed]>
             (<[client_conn := Closed]> (<[backend_conn := st]> (fds w))) →
  open_sockets w' = open_sockets w ∖ {[client_conn]}.
Proof.
  intros Hnew Hfds. apply set_eq. intros s.
  rewrite elem_of_difference, elem_of_singleton, !elem_of_open_sockets.
  rewrite Hfds. split.
  - intros (st' & Hst & Hopen).
    destruct (decide (s = backend_conn)) as [->|Hsb].
    { rewrite lookup_insert_eq in Hst. congruence. }
    rewrite lookup_insert_ne in Hst by done.
    destruct (decide (s = client_conn)) as [->|Hsc].
    { rewrite lookup_insert_eq in Hst. congruence. }
    rewrite !lookup_insert_ne in Hst by done.
    split; [by exists st'|done].
  - intros [(st' & Hst & Hopen) Hsc].
    destruct (decide (s = backend_conn)) as [->|Hsb]; [congruence|].
    exists st'. by rewrite !lookup_insert_ne.
Qed.

(** The call when the connect fails: the body has closed the client
    socket, and the frame held the only reference to the backend socket,
    which is finalised. *)
Lemma call_handle_request_connect_fails_run env client_conn w :
  healthy w ≠ [] → socket_ok env = true → connect_ok env = false →
  ∃ server,
    at_cursor (healthy w) (current (self w)) = Some server ∧
    let backend_conn := fresh (dom (fds w)) in
    (call_handle_request env client_conn w).1 = Returned tt ∧
    fds (call_handle_request env client_conn w).2
    = <[backend_conn := Closed]>
        (<[client_conn := Closed]> (<[backend_conn := Unconnected]> (fds w))) ∧
    log (call_handle_request env client_conn w).2
    = log w ++ [EvSocket backend_conn;
                EvConnect backend_conn server false;
                EvPrint (ConnectFailed server.2 OSError);
                EvClose client_conn].
Proof.
  intros Hne Hsock Hconn.
  destruct (handle_request_connect_fails env client_conn w Hne Hsock Hconn)
    as (server & Hs & Hret & Hfds & Hlog).
  exists server. split; [done|]. cbv zeta.
  destruct (call_handle_request_frame env client_conn w) as (-> & _ & _ & ->).
  split_and!; [done| |done].
  unfold call_handle_request.
  destruct (handle_request env client_conn w) as [r w']. cbn [fst snd] in *.
  rewrite Hlog, drop_app_length.
  replace (held _) with (@nil sock) by done.
  replace (created _) with [fresh (dom (fds w))] by done.
  rewrite filter_cons_True by apply not_elem_of_nil.
  simpl. by rewrite Hfds.
Qed.

(** C1.  A session whose connect to the selected backend raises: the
    call of [handle_request] returns, having made this one connect
    attempt; the client socket is closed (by the [except] branch) and so
    is the backend socket created for the session (finalised when the
    call returns, its only reference being the local [backend_conn]).
    No other socket changes, so the sockets open after the call are those
    open before it, less the client's: no descriptor is leaked. *)
Theorem connect_failure_closes_both_sockets (env : session_env)
    (client_conn : sock) (w : world) :
  healthy w ≠ [] → socket_ok env = true → connect_ok env = false →
  let backend_conn := fresh (dom (fds w)) in
  (call_handle_request env client_conn w).1 = Returned tt ∧
  fds (call_handle_request env client_conn w).2 !! client_conn
  = Some Closed ∧
  fds (call_handle_request env client_conn w).2 !! backend_conn
  = Some Closed ∧
  (∀ s, s ≠ client_conn → s ≠ backend_conn →
     fds (call_handle_request env client_conn w).2 !! s = fds w !! s) ∧
  open_sockets (call_handle_request env client_conn w).2
  = open_sockets w ∖ {[client_conn]} ∧
  ∃ server,
    at_cursor (healthy w) (current (self w)) = Some server ∧
    connects (drop (length (log w))
                (log (call_handle_request env client_conn w).2))
    = [(backend_conn, server)].
Proof.
  intros Hne Hsock Hconn backend_conn.
  destruct (call_handle_request_connect_fails_run env client_conn w
              Hne Hsock Hconn) as (server & Hs & Hret & Hfds & Hlog).
  fold backend_conn in Hfds, Hlog.
  assert (fds w !! backend_conn = None) as Hnew.
  { apply not_elem_of_dom. apply is_fresh. }
  assert (fds (call_handle_request env client_conn w).2 !! client_conn
          = Some Closed) as Hc.
  { rewrite Hfds. destruct (decide (backend_conn = client_conn)) as [->|Hbc].
    - apply lookup_insert_eq.
    - rewrite lookup_insert_ne by done. apply lookup_insert_eq. }
  assert (fds (call_handle_request env client_conn w).2 !! backend_conn
          = Some Closed) as Hb.
  { rewrite Hfds. apply lookup_insert_eq. }
  assert (∀ s, s ≠ client_conn → s ≠ backend_conn →
            fds (call_handle_request env client_conn w).2 !! s = fds w !! s)
    as Hother.
  { intros s Hsc Hsb. rewrite Hfds. by rewrite !lookup_insert_ne. }
  split_and!; [done..| |].
  - exact (open_sockets_session_closed w _ client_conn backend_conn
             Unconnected Hnew Hfds).
  - exists server. split; [done|]. by rewrite Hlog, drop_app_length.
Qed.

(** [my_servers] all believed healthy, a client accepted on socket 0 and
    a backend that refuses the connection: sockets 0 and 1 end closed,
    and one descriptor fewer is open than before the call. *)
Lemma connect_failure_closes_both_sockets_example :
  (call_handle_request refused 0 (accept lb).2).1 = Returned tt ∧
  fds (call_handle_request refused 0 (accept lb).2).2 !! 0 = Some Closed ∧
  fds (call_handle_request refused 0 (accept lb).2).2 !! 1 = Some Closed ∧
  open_sockets (accept lb).2 = {[0]} ∧
  open_sockets (call_handle_request refused 0 (accept lb).2).2 = ∅.
Proof.
  destruct (connect_failure_closes_both_sockets refused 0 (accept lb).2)
    as (Hret & Hc & Hb & _ & Hopen & _);
    [by vm_compute|reflexivity|reflexivity|].
  assert (open_sockets (accept lb).2 = {[0]}) as Hbefore
    by (vm_compute; reflexivity).
  split_and!; [exact Hret | exact Hc | exact Hb | exact Hbefore |].
  rewrite Hopen, Hbefore. apply difference_diag_L.
Defined.

(** ** The registry *)

(** C5.  In every state the process reaches, the healthy list is drawn
    from the configured list: every healthy backend is a configured one,
    and they come in the configured order.  The empty list qualifies. *)
Theorem healthy_subset_of_configured (σ : world * health_pc) :
  reachable σ →
  healthy σ.1 ⊆ configured σ.1 ∧ healthy σ.1 `sublist_of` configured σ.1.
Proof.
  intros Hr. destruct (reachable_registry_ok σ Hr) as (_ & _ & _ & Hsub & _).
  split; [|done]. intros x Hx. by eapply elem_of_sublist.
Qed.

(** The state after the cycle in which the second server is down. *)
Lemma healthy_subset_of_configured_example :
  ∃ σ,
    run (second_down ++ [Publish]) (lb, AtLoopHead) = Some σ ∧
    healthy σ.1 = [("127.0.0.1", 8001%Z); ("127.0.0.1", 8003%Z)] ∧
    healthy σ.1 ⊆ configured σ.1 ∧ healthy σ.1 `sublist_of` configured σ.1.
Proof.
  eexists. split; [vm_compute; reflexivity|].
  split; [vm_compute; reflexivity|].
  apply healthy_subset_of_configured.
  apply (reachable_run (second_down ++ [Publish]) (lb, AtLoopHead));
    [|vm_compute; reflexivity].
  apply reachable_init. vm_compute. eauto.
Defined.

(** C6.  A health-check cycle, from the head of the loop to its
    publication, whatever the listener, the dispatchers and the relays do
    meanwhile.  There is one probe per configured backend.  The list
    published is made of the configured backends whose probe succeeded,
    in configured order: the configured list filtered by the answers,
    when the answer depends on the backend only.  It is a new list
    object, and the publication is one assignment of it to
    [self.healthy_backends], writing no list.  Until then every state
    shows the previous healthy list, whole. *)
Theorem health_cycle_publishes_passed (σ σ' : world * health_pc)
    (pre : list action) :
  reachable σ → σ.2 = AtLoopHead → Publish ∉ pre →
  run (pre ++ [Publish]) σ = Some σ' →
  length (probes pre) = length (configured σ.1) ∧
  healthy σ'.1 = passed (probes pre) (configured σ.1) ∧
  (∀ up : Backend → bool,
     probes pre = up <$> configured σ.1 →
     healthy σ'.1 = filter (λ x, up x = true) (configured σ.1)) ∧
  configured σ'.1 = configured σ.1 ∧
  (healthy_backends (self σ'.1) ∉ dom (heap σ.1)) ∧
  (∃ σ1 alive,
     run pre σ = Some σ1 ∧
     σ' = (set_self (set_healthy_backends alive) σ1.1, Sleeping)) ∧
  (∀ p σp, p `prefix_of` pre → run p σ = Some σp →
     healthy_backends (self σp.1) = healthy_backends (self σ.1) ∧
     healthy σp.1 = healthy σ.1).
Proof.
  intros Hr Hpc Hnp Hrun.
  pose proof (reachable_registry_ok _ Hr) as Hok.
  destruct σ as [w pc]. simpl in Hpc. subst pc. cbn [fst snd].
  rewrite run_app in Hrun.
  destruct (run pre (w, AtLoopHead)) as [σ1|] eqn:Hpre; [|done].
  simpl in Hrun. destruct (step Publish σ1) as [σ2|] eqn:Hpub; [|done].
  injection Hrun as <-.
  destruct (step_publish _ _ Hpub) as (alive & i & Hpc1 & Hend & ->).
  destruct (run_keeps_registry _ _ _ Hok Hnp Hpre) as (_ & Ha & _ & Hc & _).
  cbn [fst snd] in Ha, Hc.
  assert (registry_ok σ1) as Hok1.
  { apply reachable_registry_ok. by eapply reachable_run. }
  destruct (run_from_head _ _ _ Hok Hnp Hpre)
    as [[Hh _]|(alive' & Hfor & Hnew & Halive)]; [congruence|].
  rewrite Hpc1 in Hfor. injection Hfor as <- ->.
  assert (healthy (set_self (set_healthy_backends alive) σ1.1)
          = passed (probes pre) (configured w)) as Hpassed by done.
  split_and!.
  - destruct Hok1 as (_ & _ & _ & _ & Hfor). rewrite Hpc1 in Hfor.
    destruct Hfor as (_ & _ & _ & Hle & _).
    apply lookup_ge_None_1 in Hend. rewrite Hc in Hle, Hend. lia.
  - done.
  - intros up Hup. cbn [fst]. rewrite Hpassed, Hup. apply passed_filter.
  - unfold configured in *. simpl. by rewrite Hc.
  - done.
  - by exists σ1, alive.
  - intros p σp [rest ->] Hp.
    apply not_elem_of_app in Hnp as [Hnp _].
    by destruct (run_keeps_registry _ _ _ Hok Hnp Hp) as (? & _ & ? & _).
Qed.

(** The second scenario of the design: B fails its probe while A and C
    pass, a client being served meanwhile. *)
Lemma health_cycle_publishes_passed_example :
  ∃ σ',
    run (second_down ++ [Publish]) (lb, AtLoopHead) = Some σ' ∧
    healthy σ'.1 = [("127.0.0.1", 8001%Z); ("127.0.0.1", 8003%Z)] ∧
    (healthy_backends (self σ'.1) ∉ dom (heap lb)).
Proof.
  destruct (run (second_down ++ [Publish]) (lb, AtLoopHead)) as [σ'|] eqn:Hrun;
    [|by vm_compute in Hrun].
  exists σ'. split; [done|].
  destruct (health_cycle_publishes_passed (lb, AtLoopHead) σ' second_down)
    as (_ & H2 & _ & _ & H4 & _).
  - apply reachable_init. vm_compute. eauto.
  - reflexivity.
  - intros Hin.
    repeat (apply elem_of_cons in Hin as [Hin|Hin]; [discriminate|]).
    by apply elem_of_nil in Hin.
  - exact Hrun.
  - split; [rewrite H2; vm_compute; reflexivity | exact H4].
Defined.

(** ** The cursor *)

Lemma step_cursor a σ σ' :
  step a σ = Some σ' →
  current (self σ'.1) = current (self σ.1) ∨
  ((∃ env client_conn, a = Dispatch env client_conn) ∧
   healthy σ.1 ≠ [] ∧
   current (self σ'.1) = (current (self σ.1) + 1)%Z).
Proof.
  destruct σ as [w pc]. destruct a; simpl.
  - destruct pc; try done. intros [= <-]. by left.
  - destruct pc as [|alive i|]; try done.
    destruct (configured w !! i) as [server|]; [|done].
    intros [= <-]. left. by destruct ok.
  - destruct pc as [|alive i|]; try done.
    destruct (configured w !! i) as [server|]; [done|].
    intros [= <-]. by left.
  - destruct pc; try done. intros [= <-]. by left.
  - intros [= <-]. by left.
  - intros [= <-]. cbn [fst].
    destruct (handle_request_frame env client_conn w) as [_ ->].
    destruct (decide (healthy w = [])) as [He|Hne].
    + left. by rewrite get_next_server_empty.
    + right. destruct (get_next_server_select w Hne) as (? & _ & ->).
      split_and!; [by eexists _, _|done..].
  - intros [= <-]. left. cbn [fst].
    by destruct (io_only_proxy_data source destination recvs sends w) as [_ ->].
Qed.

(** C9.  The cursor moves in one way only: a step of the process that
    changes it is a dispatcher's selection on a non-empty healthy list,
    which adds one.  In particular a publication puts the list it built
    in place of the healthy list, of whatever length, and keeps the
    cursor; and [get_next_server] on an empty healthy list keeps it too. *)
Theorem cursor_moves_only_on_selection :
  (∀ a σ σ',
     step a σ = Some σ' →
     current (self σ'.1) ≠ current (self σ.1) →
     (∃ env client_conn, a = Dispatch env client_conn) ∧
     healthy σ.1 ≠ [] ∧
     current (self σ'.1) = (current (self σ.1) + 1)%Z) ∧
  (∀ σ σ',
     step Publish σ = Some σ' →
     ∃ alive i,
       σ.2 = InFor alive i ∧
       healthy_backends (self σ'.1) = alive ∧
       healthy σ'.1 = heap σ.1 !!! alive ∧
       current (self σ'.1) = current (self σ.1)) ∧
  (∀ w,
     healthy w = [] →
     (get_next_server w).1 = Returned None ∧
     self (get_next_server w).2 = self w).
Proof.
  split_and!.
  - intros a σ σ' Hstep Hne.
    by destruct (step_cursor _ _ _ Hstep) as [Heq|?].
  - intros σ σ' Hstep.
    destruct (step_publish _ _ Hstep) as (alive & i & Hpc & _ & ->).
    by exists alive, i.
  - intros w He. by rewrite get_next_server_empty.
Qed.

(** A publication that shrinks the list from three backends to none,
    three selections having moved the cursor to 3 before. *)
Lemma cursor_moves_only_on_selection_example :
  ∃ σ σ',
    run ([Accept; Dispatch served 0; Accept; Dispatch served 2;
          Accept; Dispatch served 4] ++ all_down) (lb, AtLoopHead) = Some σ ∧
    step Publish σ = Some σ' ∧
    healthy σ.1 = my_servers ∧ healthy σ'.1 = [] ∧
    current (self σ.1) = 3%Z ∧ current (self σ'.1) = 3%Z ∧
    self (get_next_server σ'.1).2 = self σ'.1.
Proof.
  destruct cursor_moves_only_on_selection as (_ & Hpublish & Hempty).
  destruct (run ([Accept; Dispatch served 0; Accept; Dispatch served 2;
                  Accept; Dispatch served 4] ++ all_down) (lb, AtLoopHead))
    as [σ|] eqn:Hrun; [|by vm_compute in Hrun].
  destruct (step Publish σ) as [σ'|] eqn:Hstep.
  2:{ vm_compute in Hrun. injection Hrun as <-. by vm_compute in Hstep. }
  exists σ, σ'. split; [done|]. split; [done|].
  destruct (Hpublish σ σ' Hstep) as (alive & i & Hpc & Hal & Hh & Hcur).
  vm_compute in Hrun. injection Hrun as <-.
  injection Hpc as <- <-.
  assert (healthy σ'.1 = []) as He by (rewrite Hh; vm_compute; reflexivity).
  split_and!.
  - vm_compute. reflexivity.
  - done.
  - vm_compute. reflexivity.
  - rewrite Hcur. vm_compute. reflexivity.
  - by apply Hempty.
Defined.

(** ** Construction *)

(** C10.  Right after [__init__], the healthy list is a list object of
    its own, new in the store and other than the configured one, holding
    the configured backends in the same order; the cursor is 0.  It stays
    so as long as no health-check cycle has published, whatever else
    runs; and the first calls of [get_next_server] return every
    configured backend in turn, none of them probed yet. *)
Theorem healthy_initially_all (bind_address : string) (port : Z)
    (backends : ref) (h : gmap positive (list Backend)) (cfg : list Backend) :
  h !! backends = Some cfg →
  let w := __init__ bind_address port backends h in
  healthy w = cfg ∧
  configured w = cfg ∧
  all_backends (self w) = backends ∧
  (healthy_backends (self w) ∉ dom h) ∧
  healthy_backends (self w) ≠ all_backends (self w) ∧
  current (self w) = 0%Z ∧
  log w = [] ∧
  (∀ sched σ,
     Publish ∉ sched → run sched (w, AtLoopHead) = Some σ →
     healthy σ.1 = cfg) ∧
  (successive (length cfg) w).1 = Returned ∘ Some <$> cfg.
Proof.
  intros Hb w.
  assert (is_Some (h !! backends)) as Hsome by (by eexists).
  destruct (init_view bind_address port _ _ Hsome) as (Hc & Hl & Ha & Hf & Hne).
  fold w in Hc, Hl, Ha, Hf, Hne.
  rewrite (lookup_total_correct _ _ _ Hb) in Hc, Hl.
  split_and!; try done.
  - rewrite Hf. apply is_fresh.
  - intros sched σ Hnp Hrun.
    pose proof (init_registry_ok bind_address port _ _ Hsome) as Hok.
    destruct (run_keeps_registry _ _ _ Hok Hnp Hrun) as (_ & _ & -> & _).
    done.
  - rewrite <- Hl at 1. rewrite successive_first_round by done.
    by rewrite Hl.
Qed.

Lemma healthy_initially_all_example :
  healthy lb = my_servers ∧
  configured lb = my_servers ∧
  all_backends (self lb) = 1%positive ∧
  (healthy_backends (self lb) ∉ dom ({[1%positive := my_servers]}
                                       : gmap positive (list Backend))) ∧
  healthy_backends (self lb) ≠ all_backends (self lb) ∧
  current (self lb) = 0%Z ∧
  log lb = [] ∧
  (∀ sched σ,
     Publish ∉ sched → run sched (lb, AtLoopHead) = Some σ →
     healthy σ.1 = my_servers) ∧
  (successive (length my_servers) lb).1 = Returned ∘ Some <$> my_servers.
Proof.
  apply (healthy_initially_all "0.0.0.0" 80 1%positive
           {[1%positive := my_servers]} my_servers).
  vm_compute. reflexivity.
Defined.

(** ** The relay, end to end *)

(** A source that delivers [chunks] and then the end of the stream, to
    a destination that takes every write. *)
Lemma proxy_data_stream_script source destination chunks rest rest' w :
  Forall full_chunk chunks →
  proxy_data source destination
    ((RecvBytes <$> chunks) ++ RecvBytes [] :: rest)
    (replicate (length chunks) SendOk ++ rest') w
  = (Returned tt,
     mkWorld (heap w) (self w)
       (<[destination := Closed]> (<[source := Closed]> (fds w)))
       (log w ++ relayed source destination chunks
              ++ [EvRecv source []; EvClose source; EvClose destination])).
Proof.
  intros Hc.
  assert (proxy_loop source destination
            ((RecvBytes <$> chunks) ++ RecvBytes [] :: rest)
            (replicate (length chunks) SendOk ++ rest') w
          = (Returned tt,
             mkWorld (heap w) (self w) (fds w)
               (log w ++ relayed source destination chunks
                      ++ [EvRecv source []]))) as Hloop.
  { revert w. induction Hc as [|c chunks [Hne Hlen] _ IH]; intros w.
    - cbn [proxy_loop fmap list_fmap app replicate length].
      by rewrite bind_run, recv_bytes_run.
    - cbn [proxy_loop fmap list_fmap app replicate length].
      rewrite bind_run, recv_bytes_run. cbn beta iota.
      rewrite take_ge by done. rewrite bool_decide_eq_false_2 by done.
      rewrite bind_run, sendall_ok_run. cbn beta iota.
      rewrite IH. unfold emit. simpl. by rewrite <- !app_assoc. }
  unfold proxy_data, try_finally, try_except. rewrite Hloop.
  unfold mbind, M_bind, close, modify, mret, M_ret, emit, set_fds; simpl.
  by rewrite <- !app_assoc.
Qed.

(** What the log of a call says when its reads on the source returned
    some chunks and then the empty read of the end of the stream. *)
Lemma proxy_data_stream_log source destination recvs sends w chunks evs :
  log (proxy_data source destination recvs sends w).2 = log w ++ evs →
  received source evs = (RecvBytes <$> chunks) ++ [RecvBytes []] →
  (proxy_data source destination recvs sends w).1 = Returned tt ∧
  Forall (λ c, 0 < length c ≤ 4096) chunks ∧
  evs = relayed source destination chunks
        ++ [EvRecv source []; EvClose source; EvClose destination] ∧
  written destination evs = mjoin chunks ∧
  fds (proxy_data source destination recvs sends w).2 !! destination
  = Some Closed.
Proof.
  intros Hlog Hrecv.
  destruct (proxy_data_spec source destination recvs sends w)
    as (chunks' & e & Hc & He & Hrun).
  rewrite Hrun in Hlog |- *.
  assert (chunks' = chunks ∧ e = EndOfStream) as [-> ->].
  { apply (received_end_of_stream source destination); [done..|].
    rewrite <- Hrecv.
    destruct (ending_outcome e); simpl in Hlog;
      apply app_inv_head in Hlog; subst evs; [| |done].
    all: rewrite (received_app _ (_ ++ _)); simpl; by rewrite app_nil_r. }
  simpl in *. apply app_inv_head in Hlog. subst evs.
  split_and!.
  - done.
  - eapply Forall_impl; [exact Hc|]. intros c [Hne Hlen].
    split; [|done]. destruct c; [done | simpl; lia].
  - by rewrite <- app_assoc.
  - rewrite !written_app, written_relayed. simpl. by rewrite !app_nil_r.
  - apply lookup_insert_eq.
Qed.

(** C7.  A source that delivers [N] bytes, in chunks of 1 to 4096 bytes,
    and then the end of the stream.  Seen from the network, with a
    destination that takes every write: [proxy_data] reads each chunk and
    writes it whole to the destination, reads the end of the stream,
    closes the source and the destination, and returns; the bytes written
    are the [N] bytes, in order.  Seen from the call, with nothing
    assumed of the destination: whenever the reads of a call returned
    such chunks and then the empty read, that is what the call did. *)
Theorem proxy_data_relays_stream (source destination : sock) (w : world)
    (chunks : list bytes) :
  (∀ rest rest',
     Forall (λ c, 0 < length c ≤ 4096) chunks →
     let evs := relayed source destination chunks
                ++ [EvRecv source []; EvClose source; EvClose destination] in
     proxy_data source destination
       ((RecvBytes <$> chunks) ++ RecvBytes [] :: rest)
       (replicate (length chunks) SendOk ++ rest') w
     = (Returned tt,
        mkWorld (heap w) (self w)
          (<[destination := Closed]> (<[source := Closed]> (fds w)))
          (log w ++ evs)) ∧
     written destination evs = mjoin chunks) ∧
  (∀ recvs sends evs,
     log (proxy_data source destination recvs sends w).2 = log w ++ evs →
     received source evs = (RecvBytes <$> chunks) ++ [RecvBytes []] →
     (proxy_data source destination recvs sends w).1 = Returned tt ∧
     Forall (λ c, 0 < length c ≤ 4096) chunks ∧
     evs = relayed source destination chunks
           ++ [EvRecv source []; EvClose source; EvClose destination] ∧
     written destination evs = mjoin chunks ∧
     fds (proxy_data source destination recvs sends w).2 !! destination
     = Some Closed).
Proof.
  split.
  - intros rest rest' Hc evs. split.
    + apply proxy_data_stream_script.
      eapply Forall_impl; [exact Hc|]. intros c [Hpos Hlen].
      split; [|done]. intros ->. simpl in Hpos. lia.
    + subst evs. rewrite written_app, written_relayed. simpl.
      by rewrite app_nil_r.
  - intros recvs sends evs. apply proxy_data_stream_log.
Qed.

(** Five bytes arriving as three and two, then the end of the stream,
    relayed from socket 0 to socket 1. *)
Lemma proxy_data_relays_stream_example :
  let w := (accept (accept lb).2).2 in
  let evs := [EvRecv 0 abc; EvSendall 1 abc; EvRecv 0 de; EvSendall 1 de;
              EvRecv 0 []; EvClose 0; EvClose 1] in
  proxy_data 0 1 [RecvBytes abc; RecvBytes de; RecvBytes []] [SendOk; SendOk] w
  = (Returned tt,
     mkWorld (heap w) (self w) (<[1 := Closed]> (<[0 := Closed]> (fds w)))
       (log w ++ evs)) ∧
  written 1 evs = abc ++ de ∧
  (∀ recvs sends,
     log (proxy_data 0 1 recvs sends w).2 = log w ++ evs →
     (proxy_data 0 1 recvs sends w).1 = Returned tt ∧
     fds (proxy_data 0 1 recvs sends w).2 !! 1 = Some Closed).
Proof.
  intros w evs.
  destruct (proxy_data_relays_stream 0 1 w [abc; de]) as [Hscript Hlog].
  destruct (Hscript [] []) as [Hrun Hwritten].
  { repeat constructor; simpl; lia. }
  split_and!; [exact Hrun | exact Hwritten |].
  intros recvs sends Hevs.
  destruct (Hlog recvs sends evs Hevs) as (Hret & _ & _ & _ & Hclosed);
    [vm_compute; reflexivity | done].
Defined.

(** C8.  However a call of [proxy_data] goes, it never raises.  When it
    returns, the source and the destination are closed, these two closes
    being the last things it did.  It returns as soon as a read brings
    the end of the stream or fails, or a write fails: a call that has not
    returned has seen nothing but non-empty reads and completed writes,
    and has closed nothing. *)
Theorem proxy_data_closes_both (source destination : sock)
    (recvs : list recv_result) (sends : list send_result) (w : world) :
  let r := (proxy_data source destination recvs sends w).1 in
  let w' := (proxy_data source destination recvs sends w).2 in
  ∃ evs,
    log w' = log w ++ evs ∧
    match r with
    | Returned _ =>
        fds w' !! source = Some Closed ∧
        fds w' !! destination = Some Closed ∧
        ∃ evs0, evs = evs0 ++ [EvClose source; EvClose destination]
    | Raised _ => False
    | Blocked =>
        fds w' = fds w ∧
        Forall (λ ev, ∃ data, data ≠ [] ∧
                  (ev = EvRecv source data ∨ ev = EvSendall destination data))
          evs
    end ∧
    (∀ ev, ev ∈ evs →
       ev = EvRecv source [] ∨ ev = EvRecvError source ∨
       (∃ data sent, ev = EvSendallError destination data sent) →
       r = Returned tt).
Proof.
  intros r w'. subst r w'.
  destruct (proxy_data_spec source destination recvs sends w)
    as (chunks & e & Hc & He & ->).
  assert (Forall (λ ev, ∃ data, data ≠ [] ∧
                    (ev = EvRecv source data ∨ ev = EvSendall destination data))
            (relayed source destination chunks)) as Hrel.
  { induction Hc as [|c chunks [Hne _] _ IH]; [constructor|].
    unfold relayed. rewrite bind_cons.
    apply Forall_app. split; [|done].
    repeat constructor; exists c; eauto. }
  destruct e as [| |data sent| |data]; simpl.
  1-3: eexists; (split; [done|]); (split; [|done]);
       (split_and!; [|apply lookup_insert_eq|by eexists]);
       rewrite lookup_insert; case_decide; [done|apply lookup_insert_eq].
  - eexists. split; [done|]. rewrite app_nil_r. split; [done|].
    intros ev Hin Hterm. rewrite Forall_forall in Hrel.
    destruct (Hrel _ Hin) as (d & Hd & [->| ->]);
      destruct Hterm as [Heq|[Heq|(? & ? & Heq)]]; by simplify_eq.
  - destruct He as [Hne _]. eexists. split; [done|].
    assert (Forall (λ ev, ∃ data, data ≠ [] ∧
                      (ev = EvRecv source data ∨ ev = EvSendall destination data))
              (relayed source destination chunks ++ [EvRecv source data]))
      as Hall.
    { apply Forall_app. split; [done|]. repeat constructor. eauto. }
    split; [done|].
    intros ev Hin Hterm. rewrite Forall_forall in Hall.
    destruct (Hall _ Hin) as (d & Hd & [->| ->]);
      destruct Hterm as [Heq|[Heq|(? & ? & Heq)]]; by simplify_eq.
Qed.

(** A write that fails after one byte: the relay from socket 0 to socket
    1 returns, both sockets closed. *)
Lemma proxy_data_closes_both_example :
  let p := proxy_data 0 1 [RecvBytes abc; RecvBytes de] [SendError 1]
             (accept (accept lb).2).2 in
  p.1 = Returned tt ∧
  fds p.2 !! 0 = Some Closed ∧ fds p.2 !! 1 = Some Closed ∧
  log p.2 = [EvAccept 0; EvAccept 1; EvRecv 0 abc; EvSendallError 1 abc 1;
             EvClose 0; EvClose 1].
Proof.
  intros p.
  assert (p.1 = Returned tt) as Hret by (vm_compute; reflexivity).
  destruct (proxy_data_closes_both 0 1 [RecvBytes abc; RecvBytes de]
              [SendError 1] (accept (accept lb).2).2) as (evs & Hlog & Hr & _).
  fold p in Hlog, Hr. rewrite Hret in Hr. destruct Hr as (Hsrc & Hdst & _).
  split_and!; [exact Hret | exact Hsrc | exact Hdst | vm_compute; reflexivity].
Defined.

(** * Further properties of the code *)

(** ** The selector and the dispatcher *)

(** X1.  [get_next_server] never raises and never hangs, whatever the
    cursor (the index it computes is always within the list): it returns
    [None] exactly when the healthy list is empty, and otherwise a
    backend of the healthy list. *)
Theorem get_next_server_returns_member (w : world) :
  (healthy w = [] ∧ (get_next_server w).1 = Returned None) ∨
  (∃ server,
     server ∈ healthy w ∧ (get_next_server w).1 = Returned (Some server)).
Proof.
  destruct (decide (healthy w = [])) as [He|Hne].
  - left. by rewrite get_next_server_empty.
  - right. destruct (get_next_server_select w Hne) as (server & Hs & ->).
    exists server. split; [|done]. by eapply list_elem_of_lookup_2.
Qed.

(** The tail of [handle_request] once a backend is selected, case by
    case on what the system answers. *)
Ltac session_cases env w Hne :=
  let server := fresh "server" in
  let Hs := fresh "Hs" in
  let Hsel := fresh "Hsel" in
  destruct (get_next_server_select w Hne) as (server & Hs & Hsel);
  unfold handle_request; rewrite bind_run, Hsel;
  destruct server as [host prt];
  destruct env as [[] [] [] []];
  repeat (progress
            (unfold mbind, M_bind, try_except, socket_socket, connect,
               start_proxy, print, close, modify, raise, mret, M_ret;
             cbn)).

(** X2.  The only way [handle_request] raises is a failing
    [socket.socket()] after a backend was selected: the [OSError] leaves
    the call, the client socket is left as it was, nothing is logged, and
    the cursor has advanced all the same.  In every other case the call
    returns, and it never hangs. *)
Theorem handle_request_raises_only_on_socket_failure (env : session_env)
    (client_conn : sock) (w : world) :
  match (handle_request env client_conn w).1 with
  | Returned _ => healthy w = [] ∨ socket_ok env = true
  | Raised e =>
      e = OSError ∧ healthy w ≠ [] ∧ socket_ok env = false ∧
      fds (handle_request env client_conn w).2 = fds w ∧
      log (handle_request env client_conn w).2 = log w ∧
      current (self (handle_request env client_conn w).2)
      = (current (self w) + 1)%Z
  | Blocked => False
  end.
Proof.
  destruct (decide (healthy w = [])) as [He|Hne].
  - rewrite handle_request_empty by done. by left.
  - session_cases env w Hne; auto; by split_and!.
Qed.

(** X3.  A served session: with a backend selected, the socket created,
    the connect accepted and both threads started, [handle_request]
    returns having closed nothing; the backend socket is connected, the
    client socket is as it was, and two relays were started, from the
    client to the backend first, then from the backend to the client. *)
Theorem handle_request_serves (client_conn : sock) (w : world) :
  healthy w ≠ [] →
  let backend_conn := fresh (dom (fds w)) in
  ∃ server,
    at_cursor (healthy w) (current (self w)) = Some server ∧
    (handle_request served client_conn w).1 = Returned tt ∧
    fds (handle_request served client_conn w).2
    = <[backend_conn := Connected]> (fds w) ∧
    log (handle_request served client_conn w).2
    = log w ++ [EvSocket backend_conn;
                EvConnect backend_conn server true;
                EvStart client_conn backend_conn;
                EvStart backend_conn client_conn].
Proof.
  intros Hne backend_conn.
  destruct (get_next_server_select w Hne) as (server & Hs & Hsel).
  exists server. split; [done|].
  unfold handle_request. rewrite bind_run, Hsel. destruct server as [host prt].
  repeat (progress
            (unfold mbind, M_bind, try_except, socket_socket, connect,
               start_proxy, print, close, modify, raise, mret, M_ret;
             cbn)).
  split_and!; [done| |by rewrite <- !app_assoc].
  by rewrite insert_insert_eq.
Qed.

Lemma handle_request_serves_example :
  (handle_request served 0 (accept lb).2).1 = Returned tt ∧
  fds (handle_request served 0 (accept lb).2).2
  = <[1 := Connected]> (fds (accept lb).2) ∧
  log (handle_request served 0 (accept lb).2).2
  = [EvAccept 0; EvSocket 1; EvConnect 1 ("127.0.0.1", 8001%Z) true;
     EvStart 0 1; EvStart 1 0].
Proof.
  destruct (handle_request_serves 0 (accept lb).2)
    as (server & Hs & Hret & Hfds & Hlog).
  { vm_compute. discriminate. }
  vm_compute in Hs. injection Hs as <-.
  split_and!; [exact Hret | exact Hfds | exact Hlog].
Defined.

(** The body when the connect succeeded and a relay thread cannot be
    started: what it logs, and the sockets as its last statement leaves
    them. *)
Lemma handle_request_start_fails_body env client_conn w :
  healthy w ≠ [] →
  socket_ok env = true → connect_ok env = true →
  start1_ok env = false ∨ start2_ok env = false →
  ∃ server,
    at_cursor (healthy w) (current (self w)) = Some server ∧
    let backend_conn := fresh (dom (fds w)) in
    (handle_request env client_conn w).1 = Returned tt ∧
    fds (handle_request env client_conn w).2
    = <[client_conn := Closed]> (<[backend_conn := Connected]> (fds w)) ∧
    log (handle_request env client_conn w).2
    = log w ++ [EvSocket backend_conn; EvConnect backend_conn server true]
        ++ (if start1_ok env
            then [EvStart client_conn backend_conn;
                  EvStartError backend_conn client_conn]
            else [EvStartError client_conn backend_conn])
        ++ [EvPrint (ConnectFailed server.2 RuntimeError);
            EvClose client_conn].
Proof.
  intros Hne Hsock Hconn Hstart.
  destruct (get_next_server_select w Hne) as (server & Hs & Hsel).
  exists server. split; [done|].
  unfold handle_request. rewrite bind_run, Hsel. destruct server as [host prt].
  destruct env as [so co s1 s2]. simpl in Hsock, Hconn, Hstart. subst so co.
  destruct s1, s2; try (by destruct Hstart);
    repeat (progress
              (unfold mbind, M_bind, try_except, socket_socket, connect,
                 start_proxy, print, close, modify, raise, mret, M_ret;
               cbn));
    rewrite <- !app_assoc;
    (split_and!; [done|by rewrite insert_insert_eq|done]).
Qed.

(** X4.  A thread that cannot be started, after the connect succeeded:
    the [except] branch takes the [RuntimeError] for a connect failure,
    reports it as such and closes the client socket; the call returns.
    When it is the first thread that failed, no relay holds the backend
    socket: it is finalised as the call returns, and the sockets open
    after the call are those open before it, less the client's.  When it
    is the second thread that failed, the first relay has been started on
    the client socket that is now closed, and it holds the backend
    socket, which the call leaves connected. *)
Theorem call_handle_request_thread_start_fails (env : session_env)
    (client_conn : sock) (w : world) :
  healthy w ≠ [] →
  socket_ok env = true → connect_ok env = true →
  start1_ok env = false ∨ start2_ok env = false →
  let backend_conn := fresh (dom (fds w)) in
  ∃ server evs,
    at_cursor (healthy w) (current (self w)) = Some server ∧
    (call_handle_request env client_conn w).1 = Returned tt ∧
    log (call_handle_request env client_conn w).2 = log w ++ evs ∧
    closes evs = [client_conn] ∧
    EvPrint (ConnectFailed server.2 RuntimeError) ∈ evs ∧
    (start1_ok env = false →
       held evs = [] ∧
       fds (call_handle_request env client_conn w).2
       = <[backend_conn := Closed]>
           (<[client_conn := Closed]>
              (<[backend_conn := Connected]> (fds w))) ∧
       open_sockets (call_handle_request env client_conn w).2
       = open_sockets w ∖ {[client_conn]}) ∧
    (start1_ok env = true →
       held evs = [client_conn; backend_conn] ∧
       fds (call_handle_request env client_conn w).2
       = <[client_conn := Closed]> (<[backend_conn := Connected]> (fds w))).
Proof.
  intros Hne Hsock Hconn Hstart backend_conn.
  destruct (handle_request_start_fails_body env client_conn w
              Hne Hsock Hconn Hstart) as (server & Hs & Hret & Hfds & Hlog).
  fold backend_conn in Hfds, Hlog.
  exists server. eexists. split; [done|].
  destruct (call_handle_request_frame env client_conn w) as (-> & _ & _ & ->).
  split; [done|]. split; [exact Hlog|].
  split; [by destruct (start1_ok env)|].
  split.
  { destruct (start1_ok env);
      repeat first [apply list_elem_of_here | apply list_elem_of_further]. }
  assert (fds w !! backend_conn = None) as Hnew.
  { apply not_elem_of_dom. apply is_fresh. }
  unfold call_handle_request.
  destruct (handle_request env client_conn w) as [r w']. cbn [fst snd] in *.
  rewrite Hlog, drop_app_length.
  split; intros H1; rewrite H1.
  - replace (held _) with (@nil sock) by done.
    replace (created _) with [backend_conn] by done.
    rewrite filter_cons_True by apply not_elem_of_nil.
    assert (fds (foldr finalize w'
                   (backend_conn :: filter (λ s, s ∉ []) []))
            = <[backend_conn := Closed]>
                (<[client_conn := Closed]>
                   (<[backend_conn := Connected]> (fds w)))) as Hafter.
    { simpl. by rewrite Hfds. }
    split; [done|]. split; [exact Hafter|].
    exact (open_sockets_session_closed w _ client_conn backend_conn
             Connected Hnew Hafter).
  - replace (held _) with [client_conn; backend_conn] by done.
    replace (created _) with [backend_conn] by done.
    rewrite filter_cons_False.
    + split; [done|]. simpl. exact Hfds.
    + intros Hn. apply Hn. apply list_elem_of_further, list_elem_of_here.
Qed.

(** [my_servers] all believed healthy and a client accepted on socket 0.
    When the first thread cannot be started, sockets 0 and 1 end closed
    and nothing is left open; when the second cannot, socket 1 is left
    connected, in the hands of the relay started on sockets 0 and 1. *)
Lemma call_handle_request_thread_start_fails_example :
  (fds (call_handle_request first_thread_fails 0 (accept lb).2).2 !! 1
   = Some Closed ∧
   open_sockets (call_handle_request first_thread_fails 0 (accept lb).2).2
   = ∅) ∧
  ∃ evs,
    (call_handle_request second_thread_fails 0 (accept lb).2).1
    = Returned tt ∧
    log (call_handle_request second_thread_fails 0 (accept lb).2).2
    = log (accept lb).2 ++ evs ∧
    closes evs = [0] ∧
    EvPrint (ConnectFailed 8001 RuntimeError) ∈ evs ∧
    held evs = [0; 1] ∧
    fds (call_handle_request second_thread_fails 0 (accept lb).2).2
    = <[0 := Closed]> (<[1 := Connected]> (fds (accept lb).2)).
Proof.
  split.
  - destruct (call_handle_request_thread_start_fails
                first_thread_fails 0 (accept lb).2)
      as (server & evs & _ & _ & _ & _ & _ & Hfirst & _);
      [by vm_compute|reflexivity|reflexivity|by left|].
    destruct (Hfirst eq_refl) as (_ & Hfds & Hopen).
    split.
    + rewrite Hfds. apply lookup_insert_eq.
    + rewrite Hopen.
      assert (open_sockets (accept lb).2 = {[0]}) as ->
        by (vm_compute; reflexivity).
      apply difference_diag_L.
  - destruct (call_handle_request_thread_start_fails
                second_thread_fails 0 (accept lb).2)
      as (server & evs & Hs & Hret & Hlog & Hcl & Hpr & _ & Hsecond);
      [by vm_compute|reflexivity|reflexivity|by right|].
    vm_compute in Hs. injection Hs as <-.
    destruct (Hsecond eq_refl) as (Hheld & Hfds).
    exists evs. by split_and!.
Defined.

(** X5.  Whatever the system answers, [handle_request] closes no socket
    but the client's, attempts at most one connect, to the backend under
    the cursor and on the socket it has just created (there is no second
    try on another backend), leaves every other socket as it was, and
    writes no list of the registry. *)
Theorem handle_request_session_only (env : session_env) (client_conn : sock)
    (w : world) :
  let backend_conn := fresh (dom (fds w)) in
  ∃ evs,
    log (handle_request env client_conn w).2 = log w ++ evs ∧
    (closes evs = [] ∨ closes evs = [client_conn]) ∧
    (connects evs = [] ∨
     ∃ server,
       at_cursor (healthy w) (current (self w)) = Some server ∧
       connects evs = [(backend_conn, server)]) ∧
    (∀ s, s ≠ client_conn → s ≠ backend_conn →
       fds (handle_request env client_conn w).2 !! s = fds w !! s) ∧
    heap (handle_request env client_conn w).2 = heap w.
Proof.
  intros backend_conn.
  destruct (decide (healthy w = [])) as [He|Hne].
  { rewrite handle_request_empty by done. simpl.
    exists [EvPrint NoHealthyBackends; EvClose client_conn].
    split_and!; [by rewrite <- app_assoc|by right|by left| |done].
    intros s Hs _. by rewrite lookup_insert_ne. }
  assert (∃ server, at_cursor (healthy w) (current (self w)) = Some server)
    as [srv Hsrv].
  { destruct (get_next_server_select w Hne) as (server & Hs & _). by eexists. }
  session_cases env w Hne; rewrite <- ?app_assoc;
    first [ exists []; rewrite app_nil_r; split; [done|]
          | eexists; split; [done|] ];
    (split_and!;
       [ first [by left | by right]
       | first [by left | right; eexists; by split]
       | intros s ??; by rewrite ?lookup_insert_ne
       | done ]).
Qed.

(** ** The relay *)

Lemma delivered_app s evs1 evs2 :
  delivered s (evs1 ++ evs2) = delivered s evs1 ++ delivered s evs2.
Proof. apply bind_app. Qed.

Lemma delivered_relayed source destination chunks :
  delivered source (relayed source destination chunks) = mjoin chunks.
Proof.
  induction chunks as [|c chunks IH]; [done|].
  unfold relayed in *. rewrite bind_cons, delivered_app, IH. csimpl.
  by rewrite decide_True, app_nil_r.
Qed.

(** The events of a call, read off [proxy_data_spec]. *)
Lemma proxy_data_events source destination recvs sends w evs :
  log (proxy_data source destination recvs sends w).2 = log w ++ evs →
  ∃ chunks e,
    Forall full_chunk chunks ∧ ending_data e ∧
    (evs = relayed source destination chunks
           ++ ending_events source destination e ∨
     evs = (relayed source destination chunks
            ++ ending_events source destination e)
           ++ [EvClose source; EvClose destination]).
Proof.
  intros Hlog.
  destruct (proxy_data_spec source destination recvs sends w)
    as (chunks & e & Hc & He & Hrun).
  exists chunks, e. split_and!; [done..|].
  rewrite Hrun in Hlog.
  destruct (ending_outcome e); simpl in Hlog; apply app_inv_head in Hlog;
    subst evs; auto.
Qed.

(** X6.  Whatever the network does and however the call ends,
    [proxy_data] writes to the destination only bytes it has read from
    the source, in the order it read them: the bytes written are a prefix
    of the bytes read.  It holds back at most one buffer: the bytes read
    and not written are never more than 4096. *)
Theorem proxy_data_writes_prefix_of_reads (source destination : sock)
    (recvs : list recv_result) (sends : list send_result) (w : world)
    (evs : list event) :
  log (proxy_data source destination recvs sends w).2 = log w ++ evs →
  written destination evs `prefix_of` delivered source evs ∧
  length (delivered source evs) ≤ length (written destination evs) + 4096.
Proof.
  intros Hlog.
  destruct (proxy_data_events _ _ _ _ _ _ Hlog) as (chunks & e & _ & He & Hevs).
  assert (written destination (ending_events source destination e)
            `prefix_of` delivered source (ending_events source destination e)
          ∧ length (delivered source (ending_events source destination e))
            ≤ length (written destination
                        (ending_events source destination e)) + 4096)
    as [Hpre Hlen].
  { destruct e as [| |data sent| |data]; simpl in *;
      rewrite ?decide_True by done; simpl; rewrite ?app_nil_r.
    - split; [done | lia].
    - split; [done | lia].
    - destruct He as [_ Hd]. split; [|lia].
      exists (drop sent data). by rewrite take_drop.
    - split; [done | lia].
    - destruct He as [_ Hd]. split; [|lia]. apply prefix_nil. }
  assert (written destination
            (relayed source destination chunks
             ++ ending_events source destination e)
            `prefix_of`
          delivered source
            (relayed source destination chunks
             ++ ending_events source destination e)
          ∧ length (delivered source
                      (relayed source destination chunks
                       ++ ending_events source destination e))
            ≤ length (written destination
                        (relayed source destination chunks
                         ++ ending_events source destination e)) + 4096)
    as [Hpre' Hlen'].
  { rewrite written_app, delivered_app, written_relayed, delivered_relayed.
    split; [by apply prefix_app|]. rewrite !length_app. lia. }
  destruct Hevs as [-> | ->]; [done|].
  rewrite written_app, delivered_app. simpl. by rewrite !app_nil_r.
Qed.

(** A read of two bytes whose write fails after the first one. *)
Lemma proxy_data_writes_prefix_of_reads_example :
  written 1 [EvRecv 0 abc; EvSendall 1 abc; EvRecv 0 de;
             EvSendallError 1 de 1; EvClose 0; EvClose 1]
    `prefix_of`
  delivered 0 [EvRecv 0 abc; EvSendall 1 abc; EvRecv 0 de;
               EvSendallError 1 de 1; EvClose 0; EvClose 1] ∧
  length (delivered 0 [EvRecv 0 abc; EvSendall 1 abc; EvRecv 0 de;
                       EvSendallError 1 de 1; EvClose 0; EvClose 1])
  ≤ length (written 1 [EvRecv 0 abc; EvSendall 1 abc; EvRecv 0 de;
                       EvSendallError 1 de 1; EvClose 0; EvClose 1]) + 4096.
Proof.
  apply (proxy_data_writes_prefix_of_reads 0 1
           [RecvBytes abc; RecvBytes de; RecvBytes []]
           [SendOk; SendError 1] (accept (accept lb).2).2).
  vm_compute. reflexivity.
Defined.

(** X7.  A relay touches its own two sockets only: every other socket
    keeps its state, the only sockets it closes are its source and its
    destination, and the registry and the cursor are as before. *)
Theorem proxy_data_touches_its_sockets_only (source destination : sock)
    (recvs : list recv_result) (sends : list send_result) (w : world) :
  (∀ s, s ≠ source → s ≠ destination →
     fds (proxy_data source destination recvs sends w).2 !! s = fds w !! s) ∧
  (∃ evs,
     log (proxy_data source destination recvs sends w).2 = log w ++ evs ∧
     (closes evs = [] ∨ closes evs = [source; destination])) ∧
  heap (proxy_data source destination recvs sends w).2 = heap w ∧
  self (proxy_data source destination recvs sends w).2 = self w.
Proof.
  destruct (io_only_proxy_data source destination recvs sends w) as [Hh Hs].
  split_and!; [| |done..].
  - intros s Hsrc Hdst.
    destruct (proxy_data_spec source destination recvs sends w)
      as (chunks & e & _ & _ & ->).
    destruct (ending_outcome e); simpl; by rewrite ?lookup_insert_ne.
  - destruct (proxy_data_spec source destination recvs sends w)
      as (chunks & e & _ & _ & ->).
    assert (closes (relayed source destination chunks
                    ++ ending_events source destination e) = []) as Hnone.
    { unfold closes. rewrite omap_app.
      assert (omap (λ ev, match ev with EvClose s => Some s | _ => None end)
                (relayed source destination chunks) = []) as ->.
      { induction chunks as [|c chunks IH]; [done|].
        unfold relayed in *. by rewrite bind_cons, omap_app, IH. }
      by destruct e. }
    destruct (ending_outcome e); simpl; eexists; (split; [done|]).
    + right. unfold closes in *. by rewrite omap_app, Hnone.
    + right. unfold closes in *. by rewrite omap_app, Hnone.
    + by left.
Qed.

(** X8.  The two relays of a session close the same two sockets: once
    the relay from [a] to [b] has returned, the relay from [b] to [a],
    whatever it meets, finds and leaves both sockets closed; when it
    returns, its two closes have changed nothing. *)
Theorem second_relay_keeps_closed (a b : sock)
    (recvs recvs' : list recv_result) (sends sends' : list send_result)
    (w : world) :
  (proxy_data a b recvs sends w).1 = Returned tt →
  let w1 := (proxy_data a b recvs sends w).2 in
  fds w1 !! a = Some Closed ∧ fds w1 !! b = Some Closed ∧
  fds (proxy_data b a recvs' sends' w1).2 = fds w1.
Proof.
  intros Hret w1.
  assert (fds w1 !! a = Some Closed ∧ fds w1 !! b = Some Closed) as [Ha Hb].
  { subst w1. revert Hret.
    destruct (proxy_data_spec a b recvs sends w) as (chunks & e & _ & _ & ->).
    destruct (ending_outcome e); simpl; try done; intros _.
    all: split; [|apply lookup_insert_eq].
    all: rewrite lookup_insert; case_decide; [done|apply lookup_insert_eq]. }
  split_and!; [done..|].
  destruct (proxy_data_spec b a recvs' sends' w1) as (chunks & e & _ & _ & ->).
  destruct (ending_outcome e); simpl; try done.
  - rewrite (insert_id (fds w1) b) by done. by rewrite insert_id.
  - rewrite (insert_id (fds w1) b) by done. by rewrite insert_id.
Qed.

(** The backend closes at once; the client then sends into the closed
    session. *)
Lemma second_relay_keeps_closed_example :
  let w1 := (proxy_data 1 0 [RecvBytes []] [] (accept (accept lb).2).2).2 in
  fds w1 !! 1 = Some Closed ∧ fds w1 !! 0 = Some Closed ∧
  fds (proxy_data 0 1 [RecvError] [] w1).2 = fds w1.
Proof.
  apply (second_relay_keeps_closed 1 0 [RecvBytes []] [RecvError] [] []
           (accept (accept lb).2).2).
  vm_compute. reflexivity.
Defined.

(** ** The cursor and the lists of the registry, over time *)

Lemma dispatches_cons a sched :
  dispatches (a :: sched)
  = (if is_dispatch a then 1 else 0) + dispatches sched.
Proof.
  unfold dispatches. destruct (is_dispatch a) eqn:Ha.
  - rewrite filter_cons_True; [done | by rewrite Ha].
  - rewrite filter_cons_False; [done | rewrite Ha; exact id].
Qed.

Lemma reachable_cursor_nonneg σ : reachable σ → (0 ≤ current (self σ.1))%Z.
Proof.
  induction 1 as [| a σ σ' _ IH Hstep]; [simpl; lia|].
  destruct (step_cursor _ _ _ Hstep) as [->|(_ & _ & ->)]; lia.
Qed.

(** X9.  The cursor counts selections: it starts at 0, is never negative,
    never decreases, and over any stretch of the process it grows by at
    most the number of sessions dispatched in it. *)
Theorem cursor_monotone_bounded (sched : list action)
    (σ σ' : world * health_pc) :
  reachable σ → run sched σ = Some σ' →
  (0 ≤ current (self σ.1))%Z ∧
  (current (self σ.1) ≤ current (self σ'.1))%Z ∧
  (current (self σ'.1) ≤ current (self σ.1) + Z.of_nat (dispatches sched))%Z.
Proof.
  intros Hr Hrun. split; [by apply reachable_cursor_nonneg|].
  clear Hr. revert σ Hrun.
  induction sched as [|a sched IH]; intros σ; cbn [run].
  - intros [= <-]. unfold dispatches. simpl. lia.
  - destruct (step a σ) as [σ1|] eqn:Hstep; [|done]. intros Hrun.
    destruct (IH _ Hrun) as [Hlo Hhi]. rewrite dispatches_cons.
    destruct (step_cursor _ _ _ Hstep) as [Heq|((env & c & ->) & _ & Heq)];
      rewrite Heq in Hlo, Hhi; simpl; lia.
Qed.

Lemma cursor_monotone_bounded_example :
  ∃ σ',
    run ([Accept; Dispatch served 0] ++ all_down
         ++ [Publish; Dispatch refused 2; Dispatch served 2])
      (lb, AtLoopHead) = Some σ' ∧
    current (self σ'.1) = 1%Z ∧
    (0 ≤ current (self lb))%Z ∧
    (current (self lb) ≤ current (self σ'.1))%Z ∧
    (current (self σ'.1) ≤ current (self lb) + 3)%Z.
Proof.
  destruct (run ([Accept; Dispatch served 0] ++ all_down
                 ++ [Publish; Dispatch refused 2; Dispatch served 2])
              (lb, AtLoopHead)) as [σ'|] eqn:Hrun; [|by vm_compute in Hrun].
  exists σ'. split; [done|].
  split; [by vm_compute in Hrun; injection Hrun as <-|].
  assert (reachable (lb, AtLoopHead)) as Hr.
  { apply reachable_init. vm_compute. eauto. }
  exact (cursor_monotone_bounded _ (lb, AtLoopHead) σ' Hr Hrun).
Defined.

Lemma step_settled r v a σ σ' :
  settled r v σ → step a σ = Some σ' → settled r v σ'.
Proof.
  destruct σ as [w pc]. intros (Hin & Hv & Hpc) Hstep. simpl in Hin, Hv, Hpc.
  destruct (decide (is_session a)) as [Hs|Hs].
  { destruct (step_session _ _ _ _ Hs Hstep) as (Hpc' & Hh & _).
    unfold settled. rewrite Hpc', Hh. done. }
  destruct a; simpl in Hs; try done; destruct pc as [|alive i|];
    simpl in Hstep; try done.
  - injection Hstep as <-. pose proof (fresh_ref_new _ _ Hin) as Hne.
    unfold settled. simpl.
    by rewrite lookup_insert_ne, lookup_total_insert_ne.
  - destruct (configured w !! i) as [server|]; [|done].
    injection Hstep as <-. unfold settled. destruct ok; simpl; [|done].
    by rewrite lookup_insert_ne, lookup_total_insert_ne.
  - destruct (configured w !! i) as [server|]; [done|].
    by injection Hstep as <-.
  - by injection Hstep as <-.
Qed.

Lemma run_settled r v sched σ σ' :
  settled r v σ → run sched σ = Some σ' → settled r v σ'.
Proof.
  revert σ. induction sched as [|a sched IH]; intros σ Hset; cbn [run].
  - by intros [= <-].
  - destruct (step a σ) as [σ1|] eqn:Hstep; [|done].
    apply IH. by eapply step_settled.
Qed.

Lemma run_all_backends sched σ σ' :
  run sched σ = Some σ' → all_backends (self σ'.1) = all_backends (self σ.1).
Proof.
  revert σ. induction sched as [|a sched IH]; intros σ; cbn [run].
  - by intros [= <-].
  - destruct (step a σ) as [σ1|] eqn:Hstep; [|done]. intros Hrun.
    rewrite (IH _ Hrun). clear IH Hrun. destruct σ as [w pc].
    destruct (decide (is_session a)) as [Hs|Hs].
    { by destruct (step_session _ _ _ _ Hs Hstep) as (_ & _ & -> & _). }
    destruct a; simpl in Hs; try done; destruct pc as [|alive i|];
      simpl in Hstep; try done.
    + by injection Hstep as <-.
    + destruct (configured w !! i) as [server|]; [|done].
      injection Hstep as <-. by destruct ok.
    + destruct (configured w !! i) as [server|]; [done|].
      by injection Hstep as <-.
    + by injection Hstep as <-.
Qed.

(** X10.  The configured list is fixed once the balancer is built:
    whatever runs afterwards, publications included,
    [self.all_backends] is the same list object with the same items. *)
Theorem configured_never_changes (sched : list action)
    (σ σ' : world * health_pc) :
  reachable σ → run sched σ = Some σ' →
  all_backends (self σ'.1) = all_backends (self σ.1) ∧
  configured σ'.1 = configured σ.1.
Proof.
  intros Hr Hrun.
  pose proof (run_all_backends _ _ _ Hrun) as Ha. split; [done|].
  destruct (reachable_registry_ok _ Hr) as (Hall & _ & _ & _ & Hpc).
  assert (settled (all_backends (self σ.1)) (configured σ.1) σ) as Hset.
  { split_and!; [done..|]. destruct σ.2; [done| |done]. by destruct Hpc as (_ & ? & _). }
  destruct (run_settled _ _ _ _ _ Hset Hrun) as (_ & Hv & _).
  unfold configured at 1. by rewrite Ha.
Qed.

Lemma configured_never_changes_example :
  ∃ σ',
    run (second_down ++ [Publish; Wake] ++ all_down ++ [Publish])
      (lb, AtLoopHead) = Some σ' ∧
    healthy σ'.1 = [] ∧
    all_backends (self σ'.1) = all_backends (self lb) ∧
    configured σ'.1 = my_servers.
Proof.
  destruct (run (second_down ++ [Publish; Wake] ++ all_down ++ [Publish])
              (lb, AtLoopHead)) as [σ'|] eqn:Hrun; [|by vm_compute in Hrun].
  exists σ'. split; [done|].
  split; [by vm_compute in Hrun; injection Hrun as <-|].
  assert (reachable (lb, AtLoopHead)) as Hr.
  { apply reachable_init. vm_compute. eauto. }
  exact (configured_never_changes _ (lb, AtLoopHead) σ' Hr Hrun).
Defined.

(** X11.  A healthy list is never written once it is published: the list
    object that [self.healthy_backends] names at some moment keeps its
    items for ever after, through later cycles and publications, so a
    selection reads a list that nothing is changing under it. *)
Theorem published_list_never_mutated (sched : list action)
    (σ σ' : world * health_pc) :
  reachable σ → run sched σ = Some σ' →
  heap σ'.1 !!! healthy_backends (self σ.1) = healthy σ.1.
Proof.
  intros Hr Hrun.
  destruct (reachable_registry_ok _ Hr) as (_ & Hhl & _ & _ & Hpc).
  assert (settled (healthy_backends (self σ.1)) (healthy σ.1) σ) as Hset.
  { split_and!; [done..|]. destruct σ.2; [done| |done].
    by destruct Hpc as (_ & _ & ? & _). }
  by destruct (run_settled _ _ _ _ _ Hset Hrun) as (_ & Hv & _).
Qed.

Lemma published_list_never_mutated_example :
  ∃ σ',
    run (second_down ++ [Publish; Wake] ++ all_down ++ [Publish])
      (lb, AtLoopHead) = Some σ' ∧
    healthy σ'.1 = [] ∧
    heap σ'.1 !!! healthy_backends (self lb) = my_servers.
Proof.
  destruct (run (second_down ++ [Publish; Wake] ++ all_down ++ [Publish])
              (lb, AtLoopHead)) as [σ'|] eqn:Hrun; [|by vm_compute in Hrun].
  exists σ'. split; [done|].
  split; [by vm_compute in Hrun; injection Hrun as <-|].
  assert (reachable (lb, AtLoopHead)) as Hr.
  { apply reachable_init. vm_compute. eauto. }
  exact (published_list_never_mutated _ (lb, AtLoopHead) σ' Hr Hrun).
Defined.

(** ** What the health checker reports *)

Lemma health_log_app evs1 evs2 :
  health_log (evs1 ++ evs2) = health_log evs1 ++ health_log evs2.
Proof. apply filter_app. Qed.

Lemma health_log_relayed source destination chunks :
  health_log (relayed source destination chunks) = [].
Proof.
  induction chunks as [|c chunks IH]; [done|].
  unfold relayed in *. by rewrite bind_cons, health_log_app, IH.
Qed.

Lemma health_log_probe_report server ok :
  health_log (probe_report server ok) = probe_report server ok.
Proof. by destruct ok. Qed.

(** The listener, the dispatchers and the relays add nothing to the
    health checker's part of the log. *)
Lemma session_health_log a w pc σ' :
  is_session a → step a (w, pc) = Some σ' →
  ∃ evs, log σ'.1 = log w ++ evs ∧ health_log evs = [].
Proof.
  destruct a; try done; intros _; simpl; intros [= <-]; cbn [fst].
  - by exists [EvAccept (fresh (dom (fds w)))].
  - destruct (decide (healthy w = [])) as [He|Hne].
    + rewrite handle_request_empty by done. simpl.
      exists [EvPrint NoHealthyBackends; EvClose client_conn].
      by rewrite <- app_assoc.
    + session_cases env w Hne; rewrite <- ?app_assoc;
        first [ exists []; by rewrite app_nil_r | by eexists ].
  - destruct (proxy_data_spec source destination recvs sends w)
      as (chunks & e & _ & _ & ->).
    destruct (ending_outcome e) eqn:He; simpl; eexists; (split; [done|]);
      rewrite ?health_log_app, health_log_relayed; by destruct e.
Qed.

Lemma run_in_for_log sched w alive i σ' :
  registry_ok (w, InFor alive i) → Publish ∉ sched →
  run sched (w, InFor alive i) = Some σ' →
  ∃ evs,
    log σ'.1 = log w ++ evs ∧
    health_log evs
    = mjoin (zip_with probe_report (drop i (configured w)) (probes sched)).
Proof.
  revert w i. induction sched as [|a sched IH]; intros w i Hok Hnp; cbn [run].
  - intros [= <-]. exists []. simpl. rewrite app_nil_r.
    split; [done|]. by destruct (drop i (configured w)).
  - destruct (step a (w, InFor alive i)) as [[w1 pc1]|] eqn:Hs; [|done].
    intros Hrun. apply not_elem_of_cons in Hnp as [Ha Hnp].
    pose proof (step_registry_ok _ _ _ Hok Hs) as Hok1.
    destruct (step_keeps_registry _ _ _ Hok (not_eq_sym Ha) Hs)
      as (_ & _ & _ & Hc & _). simpl in Hc.
    destruct (decide (is_session a)) as [Hses|Hses].
    { destruct (step_session _ _ _ _ Hses Hs) as (Hpc & _).
      simpl in Hpc. subst pc1.
      destruct (session_health_log _ _ _ _ Hses Hs) as (evs1 & Hl1 & Hh1).
      destruct (IH _ _ Hok1 Hnp Hrun) as (evs2 & Hl2 & Hh2).
      exists (evs1 ++ evs2). simpl in Hl1.
      rewrite Hl2, Hl1, <- app_assoc, health_log_app, Hh1, Hh2, Hc.
      by rewrite probes_session. }
    destruct a; simpl in Hses; try done; simpl in Hs.
    destruct (configured w !! i) as [server|] eqn:Hsrv; [|done].
    injection Hs as <- <-.
    destruct (IH _ _ Hok1 Hnp Hrun) as (evs2 & Hl2 & Hh2).
    exists (probe_report server ok ++ evs2).
    rewrite Hc in Hh2.
    rewrite Hl2, health_log_app, health_log_probe_report, Hh2.
    change (probes (Probe ok :: sched)) with (ok :: probes sched).
    rewrite (drop_S _ _ _ Hsrv). split; [|done].
    destruct ok; simpl; by rewrite <- !app_assoc.
Qed.

Lemma run_from_head_log sched w σ' :
  registry_ok (w, AtLoopHead) → Publish ∉ sched →
  run sched (w, AtLoopHead) = Some σ' →
  ∃ evs,
    log σ'.1 = log w ++ evs ∧
    health_log evs
    = mjoin (zip_with probe_report (configured w) (probes sched)).
Proof.
  revert w. induction sched as [|a sched IH]; intros w Hok Hnp; cbn [run].
  - intros [= <-]. exists []. simpl. rewrite app_nil_r.
    split; [done|]. by destruct (configured w).
  - destruct (step a (w, AtLoopHead)) as [[w1 pc1]|] eqn:Hs; [|done].
    intros Hrun. apply not_elem_of_cons in Hnp as [Ha Hnp].
    pose proof (step_registry_ok _ _ _ Hok Hs) as Hok1.
    destruct (step_keeps_registry _ _ _ Hok (not_eq_sym Ha) Hs)
      as (_ & _ & _ & Hc & _). simpl in Hc.
    destruct (decide (is_session a)) as [Hses|Hses].
    { destruct (step_session _ _ _ _ Hses Hs) as (Hpc & _).
      simpl in Hpc. subst pc1.
      destruct (session_health_log _ _ _ _ Hses Hs) as (evs1 & Hl1 & Hh1).
      destruct (IH _ Hok1 Hnp Hrun) as (evs2 & Hl2 & Hh2).
      exists (evs1 ++ evs2). simpl in Hl1.
      rewrite Hl2, Hl1, <- app_assoc, health_log_app, Hh1, Hh2, Hc.
      by rewrite probes_session. }
    destruct a; simpl in Hses; try done; simpl in Hs.
    injection Hs as <- <-.
    destruct (run_in_for_log _ _ _ _ _ Hok1 Hnp Hrun) as (evs & Hl & Hh).
    exists evs. change (probes (Begin :: sched)) with (probes sched).
    rewrite Hl, Hh, drop_0. split; [done|]. simpl in Hc. by rewrite Hc.
Qed.

(** X12.  What a health-check cycle leaves in the log, from the head of
    the loop to its publication and whatever else runs meanwhile: one
    probe per configured backend, in configured order, each probe that
    failed followed at once by the report that this server (its port) is
    down; a server that answered is not reported. *)
Theorem health_cycle_reports_failures (σ σ' : world * health_pc)
    (pre : list action) :
  reachable σ → σ.2 = AtLoopHead → Publish ∉ pre →
  run (pre ++ [Publish]) σ = Some σ' →
  length (probes pre) = length (configured σ.1) ∧
  ∃ evs,
    log σ'.1 = log σ.1 ++ evs ∧
    health_log evs
    = mjoin (zip_with probe_report (configured σ.1) (probes pre)).
Proof.
  intros Hr Hpc Hnp Hrun.
  pose proof (reachable_registry_ok _ Hr) as Hok.
  destruct σ as [w pc]. simpl in Hpc. subst pc. cbn [fst snd].
  rewrite run_app in Hrun.
  destruct (run pre (w, AtLoopHead)) as [σ1|] eqn:Hpre; [|done].
  simpl in Hrun. destruct (step Publish σ1) as [σ2|] eqn:Hpub; [|done].
  injection Hrun as <-.
  destruct (step_publish _ _ Hpub) as (alive & i & Hpc1 & Hend & ->).
  destruct (run_keeps_registry _ _ _ Hok Hnp Hpre) as (_ & _ & _ & Hc & _).
  cbn [fst snd] in Hc.
  split.
  - assert (registry_ok σ1) as Hok1.
    { apply reachable_registry_ok. by eapply reachable_run. }
    destruct (run_from_head _ _ _ Hok Hnp Hpre)
      as [[Hh _]|(alive' & Hfor & _)]; [congruence|].
    rewrite Hpc1 in Hfor. injection Hfor as <- ->.
    destruct Hok1 as (_ & _ & _ & _ & Hfor). rewrite Hpc1 in Hfor.
    destruct Hfor as (_ & _ & _ & Hle & _).
    apply lookup_ge_None_1 in Hend. rewrite Hc in Hle, Hend. lia.
  - destruct (run_from_head_log _ _ _ Hok Hnp Hpre) as (evs & Hl & Hh).
    by exists evs.
Qed.

Lemma health_cycle_reports_failures_example :
  ∃ σ',
    run (second_down ++ [Publish]) (lb, AtLoopHead) = Some σ' ∧
    health_log (log σ'.1)
    = [EvProbe ("127.0.0.1", 8001%Z) true;
       EvProbe ("127.0.0.1", 8002%Z) false; EvPrint (ServerDown 8002);
       EvProbe ("127.0.0.1", 8003%Z) true].
Proof.
  destruct (run (second_down ++ [Publish]) (lb, AtLoopHead)) as [σ'|] eqn:Hrun;
    [|by vm_compute in Hrun].
  exists σ'. split; [done|].
  destruct (health_cycle_reports_failures (lb, AtLoopHead) σ' second_down)
    as (_ & evs & Hlog & Hh).
  - apply reachable_init. vm_compute. eauto.
  - reflexivity.
  - intros Hin.
    repeat (apply elem_of_cons in Hin as [Hin|Hin]; [discriminate|]).
    by apply elem_of_nil in Hin.
  - exact Hrun.
  - rewrite Hlog. exact Hh.
Defined.

(** ** The listener *)

Module ListenerFacts.
Import Listener.

Lemma started_app tr1 tr2 : started (tr1 ++ tr2) = started tr1 ++ started tr2.
Proof. apply omap_app. Qed.

(** The loop on a listening socket [s] that is open: it closes nothing,
    writes nothing of the registry, leaves [s] and every socket there was
    as they are, and accepts only new sockets, each left connected; the
    handlers started are the clients accepted, but for the last client
    when its thread could not be started. *)
Lemma accept_loop_spec s arrivals tr w :
  fds w !! s = Some Unconnected →
  ∃ evs trn,
    log (accept_loop s arrivals tr w).2 = log w ++ evs ∧
    (accept_loop s arrivals tr w).1.2 = tr ++ trn ∧
    heap (accept_loop s arrivals tr w).2 = heap w ∧
    self (accept_loop s arrivals tr w).2 = self w ∧
    closes evs = [] ∧
    NoDup (accepted evs) ∧
    (∀ x, x ∈ dom (fds w) →
       (x ∉ accepted evs) ∧
       fds (accept_loop s arrivals tr w).2 !! x = fds w !! x) ∧
    (∀ c, c ∈ accepted evs →
       fds (accept_loop s arrivals tr w).2 !! c = Some Connected) ∧
    match (accept_loop s arrivals tr w).1.1 with
    | Returned v => False
    | Blocked => started trn = accepted evs
    | Raised OSError =>
        started trn = accepted evs ∧
        ∃ trn', trn = trn' ++ [AcceptError s]
    | Raised RuntimeError =>
        ∃ c, accepted evs = started trn ++ [c] ∧
             ∃ trn', trn = trn' ++ [Handler c false]
    | Raised IndexError => False
    end.
Proof.
  revert tr w. induction arrivals as [|[[]|] arrivals IH]; intros tr w Hs.
  - exists [], []. simpl. rewrite !app_nil_r.
    split_and!; try done; [constructor| |].
    + intros x _. split; [apply not_elem_of_nil|done].
    + intros c Hc. by apply elem_of_nil in Hc.
  - (* a client whose handler starts *)
    cbn [accept_loop accept].
    set (c := fresh (dom (fds w))).
    set (w1 := emit (EvAccept c) (set_fds <[c := Connected]> w)).
    assert (c ∉ dom (fds w)) as Hc by apply is_fresh.
    assert (c ≠ s) as Hcs.
    { intros ->. apply Hc. apply elem_of_dom. by eexists. }
    destruct (IH (tr ++ [Handler c true]) w1) as
      (evs & trn & Hl & Ht & Hh & Hself & Hcl & Hnd & Hold & Hnew & Hres).
    { subst w1. simpl. by rewrite lookup_insert_ne. }
    exists (EvAccept c :: evs), (Handler c true :: trn).
    assert (c ∈ dom (fds w1)) as Hc1.
    { subst w1. simpl. rewrite dom_insert_L.
      apply elem_of_union_l. by apply elem_of_singleton. }
    destruct (Hold c Hc1) as [Hcn Hcf].
    split_and!.
    + rewrite Hl. subst w1. simpl. by rewrite <- app_assoc.
    + rewrite Ht. by rewrite <- app_assoc.
    + by rewrite Hh.
    + by rewrite Hself.
    + done.
    + simpl. by constructor.
    + intros x Hx.
      assert (x ≠ c) as Hxc by (intros ->; done).
      assert (x ∈ dom (fds w1)) as Hx1.
      { subst w1. simpl. rewrite dom_insert_L. by apply elem_of_union_r. }
      destruct (Hold x Hx1) as [Hxn Hxf]. split.
      * simpl. rewrite not_elem_of_cons. done.
      * rewrite Hxf. subst w1. simpl. by rewrite lookup_insert_ne.
    + intros x Hx. simpl in Hx. apply elem_of_cons in Hx as [->|Hx].
      * rewrite Hcf. subst w1. simpl. apply lookup_insert_eq.
      * by apply Hnew.
    + destruct ((accept_loop s arrivals (tr ++ [Handler c true]) w1).1.1)
        as [v|[]|]; simpl; try done.
      * destruct Hres as [-> [trn' ->]]. split; [done|].
        by exists (Handler c true :: trn').
      * destruct Hres as (c' & -> & trn' & ->).
        exists c'. split; [done|]. by exists (Handler c true :: trn').
      * by rewrite Hres.
  - (* a client whose handler cannot be started *)
    cbn [accept_loop accept].
    set (c := fresh (dom (fds w))).
    assert (c ∉ dom (fds w)) as Hc by apply is_fresh.
    exists [EvAccept c], [Handler c false]. simpl.
    split_and!; try done.
    + repeat constructor. apply not_elem_of_nil.
    + intros x Hx. assert (x ≠ c) as Hxc by (intros ->; done).
      split; [|by rewrite lookup_insert_ne].
      apply not_elem_of_cons. split; [done|apply not_elem_of_nil].
    + intros x Hx. apply list_elem_of_singleton in Hx as ->.
      apply lookup_insert_eq.
    + exists c. split; [done|]. by exists [].
  - (* accept fails *)
    exists [], [AcceptError s]. simpl. rewrite app_nil_r.
    split_and!; try done; [constructor| | |by exists []].
    + intros x _. split; [apply not_elem_of_nil|done].
    + intros c Hc. by apply elem_of_nil in Hc.
Qed.

(** [run] from the creation of its socket [s] on, bind succeeding. *)
Lemma run_bound e w :
  socket_ok e = true → bind_ok e = true →
  let s := fresh (dom (fds w)) in
  let w1 := emit (EvSocket s) (set_fds <[s := Unconnected]> w) in
  let r := accept_loop s (arrivals e)
             [ReuseAddr s; Bind s (address (self w)) (port (self w)) true;
              Listen s 100; Active (address (self w)) (port (self w))] w1 in
  run e w =
    match r.1.1 with
    | Raised ex => (Raised ex, r.1.2, (close s r.2).2)
    | _ => r
    end.
Proof.
  intros Hs Hb s w1 r. unfold run, socket_socket. rewrite Hs, Hb.
  fold s. cbn [self emit set_fds]. fold w1. fold r.
  by destruct r as [[[v|ex|] tr] w2].
Qed.

(** X13.  [run] never returns.  When it raises, its listening socket is
    closed on the way out, whatever raised and however many clients were
    served before (only a failing [socket.socket()] leaves nothing to
    close); a bind that fails raises before anything is listened to or
    accepted.  While it waits for clients the listening socket is open.
    It closes no other socket. *)
Theorem run_closes_listening_socket (e : env) (w : world) :
  let s := fresh (dom (fds w)) in
  match (run e w).1.1 with
  | Returned v => False
  | Raised ex =>
      if socket_ok e then
        fds (run e w).2 !! s = Some Closed ∧
        ∃ evs,
          log (run e w).2 = log w ++ EvSocket s :: evs ++ [EvClose s] ∧
          closes evs = [] ∧
          (bind_ok e = false →
             ex = OSError ∧ evs = [] ∧
             (run e w).1.2
             = [ReuseAddr s; Bind s (address (self w)) (port (self w)) false])
      else ex = OSError ∧ (run e w).2 = w ∧ (run e w).1.2 = []
  | Blocked =>
      socket_ok e = true ∧ bind_ok e = true ∧
      fds (run e w).2 !! s = Some Unconnected ∧
      ∃ evs,
        log (run e w).2 = log w ++ EvSocket s :: evs ∧ closes evs = []
  end.
Proof.
  intros s. destruct (socket_ok e) eqn:Hs.
  2:{ unfold run, socket_socket. rewrite Hs. by simpl. }
  destruct (bind_ok e) eqn:Hb.
  2:{ unfold run, socket_socket. rewrite Hs, Hb. fold s. simpl.
      split; [apply lookup_insert_eq|]. exists []. split_and!; try done.
      by rewrite <- app_assoc. }
  rewrite (run_bound e w Hs Hb). fold s. cbv zeta.
  set (w1 := emit (EvSocket s) (set_fds <[s := Unconnected]> w)).
  set (tr := [ReuseAddr s; Bind s (address (self w)) (port (self w)) true;
              Listen s 100; Active (address (self w)) (port (self w))]).
  destruct (accept_loop_spec s (arrivals e) tr w1)
    as (evs & trn & Hl & _ & _ & _ & Hcl & _ & Hold & _ & Hres).
  { subst w1. simpl. apply lookup_insert_eq. }
  assert (s ∈ dom (fds w1)) as Hsd.
  { subst w1. simpl. rewrite dom_insert_L.
    apply elem_of_union_l. by apply elem_of_singleton. }
  destruct (Hold s Hsd) as [_ Hsf].
  destruct (accept_loop s (arrivals e) tr w1) as [[[v|ex|] tr'] w2];
    simpl in *.
  - done.
  - split; [apply lookup_insert_eq|]. exists evs.
    split_and!; [|done|done].
    rewrite Hl. subst w1. simpl. by rewrite <- !app_assoc.
  - split_and!; [done..| |].
    + rewrite Hsf. subst w1. simpl. apply lookup_insert_eq.
    + exists evs. split; [|done]. rewrite Hl. subst w1. simpl.
      by rewrite <- !app_assoc.
Qed.

(** X14.  Every client [run] accepts is a new socket, left connected,
    and gets its own handler thread, in the order of arrival: the
    handlers started are the clients accepted, except that a client whose
    thread cannot be started ends [run] with the [RuntimeError] and is
    left open with no handler.  Nothing is accepted unless the socket was
    bound and listened to and the start-up line printed first; no socket
    that existed before is touched, and the registry is left alone. *)
Theorem run_handlers_follow_accepts (e : env) (w : world) :
  let s := fresh (dom (fds w)) in
  ∃ evs,
    log (run e w).2 = log w ++ evs ∧
    NoDup (accepted evs) ∧
    (∀ c, c ∈ accepted evs →
       (c ∉ dom (fds w)) ∧ c ≠ s ∧ fds (run e w).2 !! c = Some Connected) ∧
    (∀ x, x ∈ dom (fds w) → fds (run e w).2 !! x = fds w !! x) ∧
    heap (run e w).2 = heap w ∧ self (run e w).2 = self w ∧
    (started (run e w).1.2 = accepted evs ∨
     (run e w).1.1 = Raised RuntimeError ∧
     ∃ c, accepted evs = started (run e w).1.2 ++ [c]) ∧
    (accepted evs ≠ [] →
       ∃ trn,
         (run e w).1.2
         = [ReuseAddr s; Bind s (address (self w)) (port (self w)) true;
            Listen s 100; Active (address (self w)) (port (self w))] ++ trn).
Proof.
  intros s.
  assert (s ∉ dom (fds w)) as Hfresh by apply is_fresh.
  destruct (socket_ok e) eqn:Hs.
  2:{ unfold run, socket_socket. rewrite Hs. simpl. exists [].
      rewrite app_nil_r. split_and!; try done; [constructor| |by left].
      intros c Hc. by apply elem_of_nil in Hc. }
  destruct (bind_ok e) eqn:Hb.
  2:{ unfold run, socket_socket. rewrite Hs, Hb. fold s. simpl.
      exists [EvSocket s; EvClose s].
      split_and!; try done; [by rewrite <- app_assoc|constructor| | |by left].
      - intros c Hc. by apply elem_of_nil in Hc.
      - intros x Hx. rewrite !lookup_insert_ne; [done|by intros ->..]. }
  rewrite (run_bound e w Hs Hb). fold s. cbv zeta.
  set (w1 := emit (EvSocket s) (set_fds <[s := Unconnected]> w)).
  set (tr := [ReuseAddr s; Bind s (address (self w)) (port (self w)) true;
              Listen s 100; Active (address (self w)) (port (self w))]).
  destruct (accept_loop_spec s (arrivals e) tr w1)
    as (evs & trn & Hl & Ht & Hh & Hself & Hcl & Hnd & Hold & Hnew & Hres).
  { subst w1. simpl. apply lookup_insert_eq. }
  assert (∀ x, x ∈ dom (fds w) → x ∈ dom (fds w1) ∧ x ≠ s) as Hdom.
  { intros x Hx. split; [|by intros ->].
    subst w1. simpl. rewrite dom_insert_L. by apply elem_of_union_r. }
  assert (s ∈ dom (fds w1)) as Hsd.
  { subst w1. simpl. rewrite dom_insert_L.
    apply elem_of_union_l. by apply elem_of_singleton. }
  assert (∀ c, c ∈ accepted evs → (c ∉ dom (fds w)) ∧ c ≠ s) as Hacc.
  { intros c Hc. split.
    - intros Hx. destruct (Hdom c Hx) as [Hx1 _]. by destruct (Hold c Hx1).
    - intros ->. by destruct (Hold s Hsd). }
  assert (started (tr ++ trn) = started trn) as Hst by done.
  destruct (accept_loop s (arrivals e) tr w1) as [[[v|ex|] tr'] w2];
    cbn [fst snd] in Hl, Ht, Hh, Hself, Hold, Hnew, Hres; cbn [fst snd];
    [done| |].
  - (* raised: the socket is closed on the way out *)
    exists (EvSocket s :: evs ++ [EvClose s]).
    assert (accepted (EvSocket s :: evs ++ [EvClose s]) = accepted evs) as Ha.
    { unfold accepted. simpl. rewrite omap_app. simpl. by rewrite app_nil_r. }
    rewrite Ha. simpl. split_and!; try done.
    + rewrite Hl. subst w1. simpl. by rewrite <- !app_assoc.
    + intros c Hc. destruct (Hacc c Hc) as [? ?]. split_and!; [done..|].
      rewrite lookup_insert_ne by done. by apply Hnew.
    + intros x Hx. destruct (Hdom x Hx) as [Hx1 Hxs].
      rewrite lookup_insert_ne by done. destruct (Hold x Hx1) as [_ ->].
      subst w1. simpl. by rewrite lookup_insert_ne.
    + subst tr'. rewrite Hst. destruct ex; [|done|].
      * left. by destruct Hres.
      * right. split; [done|]. destruct Hres as (c & ? & _). by exists c.
    + intros _. by exists trn.
  - (* waiting for the next client *)
    exists (EvSocket s :: evs).
    change (accepted (EvSocket s :: evs)) with (accepted evs).
    split_and!; try done.
    + rewrite Hl. subst w1. simpl. by rewrite <- !app_assoc.
    + intros c Hc. destruct (Hacc c Hc) as [? ?]. split_and!; [done..|].
      by apply Hnew.
    + intros x Hx. destruct (Hdom x Hx) as [Hx1 Hxs].
      destruct (Hold x Hx1) as [_ ->].
      subst w1. simpl. by rewrite lookup_insert_ne.
    + left. subst tr'. by rewrite Hst.
    + intros _. by exists trn.
Qed.

(** Two clients are served, then [accept] fails: [run] ends with the
    [OSError], its socket 0 closed, the clients on sockets 1 and 2 left
    to their handlers. *)
Lemma run_closes_listening_socket_example :
  (run two_then_error lb).1.1 = Raised OSError ∧
  fds (run two_then_error lb).2 !! 0 = Some Closed ∧
  (run two_then_error lb).1.2
  = [ReuseAddr 0; Bind 0 "0.0.0.0" 80 true; Listen 0 100; Active "0.0.0.0" 80;
     Handler 1 true; Handler 2 true; AcceptError 0].
Proof.
  assert ((run two_then_error lb).1.1 = Raised OSError) as Hex
    by (vm_compute; reflexivity).
  pose proof (run_closes_listening_socket two_then_error lb) as H.
  cbv zeta in H. rewrite Hex in H. destruct H as [Hclosed _].
  split_and!; [exact Hex | exact Hclosed | vm_compute; reflexivity].
Defined.

Lemma run_handlers_follow_accepts_example :
  ∃ evs,
    log (run two_then_error lb).2 = evs ∧
    accepted evs = [1; 2] ∧
    started (run two_then_error lb).1.2 = [1; 2] ∧
    fds (run two_then_error lb).2 !! 1 = Some Connected ∧
    fds (run two_then_error lb).2 !! 2 = Some Connected.
Proof.
  destruct (run_handlers_follow_accepts two_then_error lb)
    as (evs & Hlog & _ & Hnew & _ & _ & _ & _ & _).
  exists evs. split; [exact Hlog|].
  assert (accepted evs = [1; 2]) as Ha.
  { assert (evs = log (run two_then_error lb).2) as -> by (by rewrite Hlog).
    vm_compute. reflexivity. }
  split; [exact Ha|]. split; [vm_compute; reflexivity|].
  split; apply Hnew; rewrite Ha.
  - apply list_elem_of_here.
  - apply list_elem_of_further, list_elem_of_here.
Defined.

End ListenerFacts.

(** ** The health checker and the selector together *)

(** X15.  No traffic for a backend found down: after a cycle has
    published, and until the next publication, every backend that
    [get_next_server] returns passed its probe in that cycle (and is a
    configured backend); one whose probe failed is not selected,
    whatever the cursor. *)
Theorem down_backend_not_selected (σ σ1 σ2 : world * health_pc)
    (pre post : list action) (up : Backend → bool) (server : Backend) :
  reachable σ → σ.2 = AtLoopHead → Publish ∉ pre →
  run (pre ++ [Publish]) σ = Some σ1 →
  probes pre = up <$> configured σ.1 →
  Publish ∉ post → run post σ1 = Some σ2 →
  (get_next_server σ2.1).1 = Returned (Some server) →
  up server = true ∧ server ∈ configured σ.1.
Proof.
  intros Hr Hpc Hnp Hrun Hup Hnp' Hpost Hsel.
  assert (reachable σ1) as Hr1 by (by eapply reachable_run).
  pose proof (reachable_registry_ok _ Hr) as Hok.
  pose proof (reachable_registry_ok _ Hr1) as Hok1.
  destruct (run_keeps_registry _ _ _ Hok1 Hnp' Hpost) as (_ & _ & Hh2 & _).
  assert (healthy σ1.1 = filter (λ x, up x = true) (configured σ.1)) as Hh1.
  { destruct σ as [w pc]. simpl in Hpc. subst pc. cbn [fst snd] in *.
    rewrite run_app in Hrun.
    destruct (run pre (w, AtLoopHead)) as [σ0|] eqn:Hpre; [|done].
    simpl in Hrun. destruct (step Publish σ0) as [σ1'|] eqn:Hpub; [|done].
    injection Hrun as <-.
    destruct (step_publish _ _ Hpub) as (alive & i & Hpc0 & _ & ->).
    destruct (run_from_head _ _ _ Hok Hnp Hpre)
      as [[Hh _]|(alive' & Hfor & _ & Halive)]; [congruence|].
    rewrite Hpc0 in Hfor. injection Hfor as <- ->.
    unfold healthy. simpl. rewrite Halive, Hup. apply passed_filter. }
  assert (server ∈ healthy σ2.1) as Hin.
  { destruct (decide (healthy σ2.1 = [])) as [He|Hne].
    - by rewrite get_next_server_empty in Hsel.
    - destruct (get_next_server_select _ Hne) as (server' & Hs & Heq).
      rewrite Heq in Hsel. injection Hsel as <-.
      by eapply list_elem_of_lookup_2. }
  rewrite Hh2, Hh1 in Hin. apply list_elem_of_filter in Hin as [? ?]. done.
Qed.

(** The server on port 8002 is down; with the cursor at 1 the next
    client is sent to 8003 and the one after would go to 8001. *)
Lemma down_backend_not_selected_example :
  ∃ σ1 σ2,
    run (second_down ++ [Publish]) (lb, AtLoopHead) = Some σ1 ∧
    run [Accept; Dispatch served 2] σ1 = Some σ2 ∧
    (get_next_server σ2.1).1 = Returned (Some ("127.0.0.1", 8001%Z)) ∧
    all_but_8002 ("127.0.0.1", 8001%Z) = true ∧
    ("127.0.0.1", 8001%Z) ∈ my_servers.
Proof.
  destruct (run (second_down ++ [Publish]) (lb, AtLoopHead)) as [σ1|] eqn:Hrun;
    [|by vm_compute in Hrun].
  destruct (run [Accept; Dispatch served 2] σ1) as [σ2|] eqn:Hpost.
  2:{ vm_compute in Hrun. injection Hrun as <-. by vm_compute in Hpost. }
  exists σ1, σ2. split; [done|]. split; [done|].
  assert ((get_next_server σ2.1).1 = Returned (Some ("127.0.0.1", 8001%Z)))
    as Hsel.
  { vm_compute in Hrun. injection Hrun as <-.
    vm_compute in Hpost. injection Hpost as <-. vm_compute. reflexivity. }
  split; [exact Hsel|].
  apply (down_backend_not_selected (lb, AtLoopHead) σ1 σ2 second_down
           [Accept; Dispatch served 2] all_but_8002).
  - apply reachable_init. vm_compute. eauto.
  - reflexivity.
  - intros Hin.
    repeat (apply elem_of_cons in Hin as [Hin|Hin]; [discriminate|]).
    by apply elem_of_nil in Hin.
  - exact Hrun.
  - vm_compute. reflexivity.
  - intros Hin.
    repeat (apply elem_of_cons in Hin as [Hin|Hin]; [discriminate|]).
    by apply elem_of_nil in Hin.
  - exact Hpost.
  - exact Hsel.
Defined.
